(** * Find-vague: the similarity-ranking engine

    A shallow embedding of the comparison operations of [vagueFinder]
    (classify, compareSentenceToArray, arrayInOrder, getCached, the cached
    variants and getTop) and of the bounded ranking list
    [LinkedListInAlikeOrder], with the properties of the specification
    stated and proved over it.

    JavaScript numbers are IEEE-754 binary64 values: they are modelled by
    Rocq's primitive [float], whose operations are specified by the
    standard library against [SpecFloat]. *)

From Stdlib Require Import ZArith List Lia Bool Floats Permutation Sorted.
From stdpp Require Import base list strings gmap.

Set Default Proof Using "Type".

(* ===================================================================== *)
(** * JavaScript numbers *)
(* ===================================================================== *)

Module Num.

(** [isNaN x]. *)
Definition isNaN (x : float) : bool := PrimFloat.is_nan x.

(** The JavaScript operators on numbers that the source uses. *)
Definition le (x y : float) : bool := PrimFloat.leb x y.
Definition lt (x y : float) : bool := PrimFloat.ltb x y.
Definition eq (x y : float) : bool := PrimFloat.eqb x y.

End Num.

(* ===================================================================== *)
(** * Data model *)
(* ===================================================================== *)

(** An embedding: [Array.from(tensor.data)], an array of numbers. *)
Definition embedding_t := list float.

(** A candidate of an input array: a raw sentence, or an object
    [{sentenceTwo, embedding}] whose text may be absent (the cached
    operations test for it). *)
Inductive item :=
| Str (s : string)
| Entry (sentenceTwo : option string) (embedding : embedding_t).

(** [{ sentenceTwo, alike }]: what the array operations return per
    candidate.  [sentenceTwo] is whatever text [classify] was given. *)
Record scored := Scored { sentenceTwo : item; alike : float }.

(** [{ sentenceOne, array }]. *)
Record compared := Compared { sentenceOne : string; array : list scored }.

(** The errors a call can end with.  The first three are the [Error]s the
    source throws itself:
    - [ModelNotLoaded]: "Model has not been loaded, use vagueFinder.loadModel()"
    - [InvalidCacheEntry]: "Each item in the cachedArray must have a sentenceTwo property"
    - [InvalidK]: "numberOfResults is either 0 or less than 0"
    [TypeError] is the one the JavaScript runtime raises (calling [null],
    reading a property of [null]). *)
Inductive error := ModelNotLoaded | InvalidCacheEntry | InvalidK | TypeError.

(** How a call ends: with a value, with a thrown error, or not at all
    ([Diverge]: a loop of the source that never exits). *)
Inductive result (A : Type) :=
| Ok (a : A)
| Throw (e : error)
| Diverge.
Arguments Ok {A} a.
Arguments Throw {A} e.
Arguments Diverge {A}.

#[global] Instance result_ret : MRet result := @Ok.
#[global] Instance result_bind : MBind result := fun A B k m =>
  match m with
  | Ok a => k a
  | Throw e => Throw e
  | Diverge => Diverge
  end.

(** What a call does that an observer can count: a call of the embedding
    provider on a text, and a run of the similarity computation. *)
Inductive event :=
| Embedded (text : item)
| Similarity (embedding1 : embedding_t) (embedding2 : option embedding_t).

(** An [async] function of the source runs sequentially (every provider
    call is awaited before the next statement): a computation from the
    events so far to a result and the events after it. *)
Definition M (A : Type) : Type := list event -> result A * list event.

#[global] Instance M_ret : MRet M := fun A a tr => (Ok a, tr).
#[global] Instance M_bind : MBind M := fun A B k m tr =>
  match m tr with
  | (Ok a, tr') => k a tr'
  | (Throw e, tr') => (Throw e, tr')
  | (Diverge, tr') => (Diverge, tr')
  end.

Definition throw {A} (e : error) : M A := fun tr => (Throw e, tr).
Definition emit (ev : event) : M unit := fun tr => (Ok tt, tr ++ [ev]).

(** A synchronous computation inside an [async] function. *)
Definition lift {A} (r : result A) : M A := fun tr => (r, tr).

(** JavaScript truthiness of a [sentenceTwo] property: absent
    ([undefined]) and the empty string are falsy. *)
Definition truthy (t : option string) : bool :=
  match t with
  | Some s => negb (String.eqb s "")
  | None => false
  end.

(** [it.sentenceTwo] and [it.embedding]; a string has neither. *)
Definition prop_sentenceTwo (it : item) : option string :=
  match it with Str _ => None | Entry t _ => t end.

Definition prop_embedding (it : item) : option embedding_t :=
  match it with Str _ => None | Entry _ e => Some e end.

(* ===================================================================== *)
(** * The similarity scorer *)
(* ===================================================================== *)

(** [calculateCosineSimilarity]: one pass over the indices of
    [embedding1]; an index beyond [embedding2] reads [undefined], which
    arithmetic turns into NaN.  [Math.sqrt] is the binary64 square
    root. *)
Definition cosine_step (embedding1 embedding2 : embedding_t)
    (acc : float * float * float) (i : nat) : float * float * float :=
  let '(dotProduct, magnitude1, magnitude2) := acc in
  let x := nth i embedding1 nan in
  let y := nth i embedding2 nan in
  ((dotProduct + x * y)%float,
   (magnitude1 + x * x)%float,
   (magnitude2 + y * y)%float).

Definition cosine_sums (embedding1 embedding2 : embedding_t)
    : float * float * float :=
  fold_left (cosine_step embedding1 embedding2)
    (seq 0 (length embedding1)) (0%float, 0%float, 0%float).

Definition calculateCosineSimilarity (embedding1 embedding2 : embedding_t)
    : float :=
  let '(dotProduct, magnitude1, magnitude2) :=
    cosine_sums embedding1 embedding2 in
  let magnitude1 := PrimFloat.sqrt magnitude1 in
  let magnitude2 := PrimFloat.sqrt magnitude2 in
  (dotProduct / (magnitude1 * magnitude2))%float.

(* ===================================================================== *)
(** * The bounded ranking list: [class LinkedListInAlikeOrder] *)
(* ===================================================================== *)

Module LinkedListInAlikeOrder.
Local Open Scope Z_scope.

(** A reference to a node object. *)
Definition ref := nat.

(** [{ ...obj, next, prev }] *)
Record node := Node { obj : scored; next : option ref; prev : option ref }.

(** The list object with the node objects created for it.  Nodes are
    shared mutable objects: they live in [nodes] and are named by
    reference; a node dropped from the chain stays there, unreachable. *)
Record t := Make {
  nodes : gmap ref node;
  head : option ref;
  tail : option ref;
  length : Z;
  maxLength : Z }.

Definition set_nodes (ns : gmap ref node) (l : t) : t :=
  Make ns (head l) (tail l) (length l) (maxLength l).
Definition set_head (h : option ref) (l : t) : t :=
  Make (nodes l) h (tail l) (length l) (maxLength l).
Definition set_tail (x : option ref) (l : t) : t :=
  Make (nodes l) (head l) x (length l) (maxLength l).
Definition set_length (n : Z) (l : t) : t :=
  Make (nodes l) (head l) (tail l) n (maxLength l).

(** [constructor(maxLength)] *)
Definition new (maxLength : Z) : t := Make ∅ None None 0 maxLength.

(** Dereferencing: a property access through [null] raises a TypeError.
    A reference always names a node that was created. *)
Definition deref (l : t) (o : option ref) : result (ref * node) :=
  match o with
  | None => Throw TypeError
  | Some r =>
      match nodes l !! r with
      | Some n => Ok (r, n)
      | None => Throw TypeError
      end
  end.

(** [x.next = v] and [x.prev = v] for a node [x] reached through [o]. *)
Definition write_next (o : option ref) (v : option ref) (l : t) : result t :=
  '(r, n) ← deref l o;
  Ok (set_nodes (<[r := Node (obj n) v (prev n)]> (nodes l)) l).

Definition write_prev (o : option ref) (v : option ref) (l : t) : result t :=
  '(r, n) ← deref l o;
  Ok (set_nodes (<[r := Node (obj n) (next n) v]> (nodes l)) l).

(** [_node(obj)]: a new node object, and the reference to it. *)
Definition _node (o : scored) (l : t) : ref * t :=
  let r := fresh (dom (nodes l)) in
  (r, set_nodes (<[r := Node o None None]> (nodes l)) l).

(** [getArray()].  The loop follows [next] until [null]; over a heap of
    [n] nodes a walk of more than [n] steps has entered a cycle and never
    ends, which is what running out of fuel stands for. *)
Fixpoint getArray_loop (fuel : nat) (l : t) (currentNode : option ref)
    (array : list scored) : result (list scored) :=
  match currentNode with
  | None => Ok array
  | Some _ =>
      match fuel with
      | O => Diverge
      | S fuel =>
          '(_, n) ← deref l currentNode;
          getArray_loop fuel l (next n)
            (array ++ [Scored (sentenceTwo (obj n)) (alike (obj n))])
      end
  end.

Definition getArray (l : t) : result (list scored) :=
  getArray_loop (S (size (nodes l))) l (head l) [].

(** [_getIndex(alike)].  [count] runs from 0 while [count < maxLength]:
    at most [maxLength] rounds, after which the loop exits and
    [maxLength] is returned. *)
Fixpoint _getIndex_loop (rounds : nat) (l : t) (alike0 : float)
    (count : Z) (currentNode : option ref) : Z :=
  match rounds with
  | O => maxLength l
  | S rounds =>
      if count <? maxLength l then
        match currentNode with
        | None => count
        | Some r =>
            match nodes l !! r with
            | Some n =>
                if Num.le (alike (obj n)) alike0 then count
                else _getIndex_loop rounds l alike0 (count + 1) (next n)
            | None => count
            end
        end
      else maxLength l
  end.

Definition _getIndex (alike0 : float) (l : t) : Z :=
  _getIndex_loop (Z.to_nat (maxLength l)) l alike0 0 (head l).

(** [_deleteLastNode()] *)
Definition _deleteLastNode (l : t) : result t :=
  '(_, tl) ← deref l (tail l);
  let newTail := prev tl in
  l ← write_prev (tail l) None l;
  l ← write_next newTail None l;
  Ok (set_length (length l - 1) (set_tail newTail l)).

(** [_audit()] *)
Definition _audit (l : t) : result t :=
  if maxLength l <? length l then _deleteLastNode l else Ok l.

(** The [while (count + 1 < index)] loop of [_insertAtIndex]: [rounds]
    steps along [next]. *)
Fixpoint advance (rounds : nat) (l : t) (currentNode : option ref)
    : result (option ref) :=
  match rounds with
  | O => Ok currentNode
  | S rounds =>
      '(_, n) ← deref l currentNode;
      advance rounds l (next n)
  end.

(** [_insertAtIndex(index, obj)] *)
Definition _insertAtIndex (index : Z) (o : scored) (l : t) : result t :=
  let '(newNode, l) := _node o l in
  let currentNode := head l in
  l ← (if index =? 0 then
         l ← write_next (Some newNode) (head l) l;
         l ← write_prev (head l) (Some newNode) l;
         Ok (set_head (Some newNode) l)
       else if index =? length l then
         l ← write_next (tail l) (Some newNode) l;
         l ← write_prev (Some newNode) (tail l) l;
         Ok (set_tail (Some newNode) l)
       else
         currentNode ← advance (Z.to_nat (index - 1)) l currentNode;
         '(_, cur) ← deref l currentNode;
         l ← write_next (Some newNode) (next cur) l;
         '(_, cur) ← deref l currentNode;
         l ← write_prev (next cur) (Some newNode) l;
         l ← write_prev (Some newNode) currentNode l;
         write_next currentNode (Some newNode) l);
  _audit (set_length (length l + 1) l).

(** [addNode(obj)] *)
Definition addNode (o : scored) (l : t) : result t :=
  match head l with
  | None =>
      let '(r, l) := _node o l in
      let l := set_tail (Some r) l in
      let l := set_head (tail l) l in
      _audit (set_length (length l + 1) l)
  | Some _ =>
      let index := _getIndex (alike o) l in
      _insertAtIndex index o l
  end.

(** Feeding a sequence of candidates to a list, in order. *)
Fixpoint addNodes (os : list scored) (l : t) : result t :=
  match os with
  | [] => Ok l
  | o :: os => l ← addNode o l; addNodes os l
  end.

End LinkedListInAlikeOrder.

(* ===================================================================== *)
(** * [Array.prototype.sort] *)
(* ===================================================================== *)

(** The built-in the source calls as [returnedArray.sort((a, b) => b.alike
    - a.alike)].  ECMAScript fixes its result for a consistent comparator:
    the sort is stable, and [x] goes before [y] when [comparefn(x, y) < 0],
    after it when [comparefn(x, y) > 0]; a NaN from the comparator counts
    as [+0] (SortCompare).  It is modelled by the stable insertion sort
    that reads exactly that of the comparator. *)

Module JSArray.

Definition SortCompare {A} (comparefn : A -> A -> float) (x y : A) : float :=
  let v := comparefn x y in
  if Num.isNaN v then 0%float else v.

(** [x] moves in front of the first [y] that must come after it. *)
Fixpoint sort_insert {A} (comparefn : A -> A -> float) (x : A)
    (sorted : list A) : list A :=
  match sorted with
  | [] => [x]
  | y :: ys =>
      if Num.lt 0 (SortCompare comparefn y x) then x :: y :: ys
      else y :: sort_insert comparefn x ys
  end.

Definition sort {A} (comparefn : A -> A -> float) (l : list A) : list A :=
  fold_left (fun sorted x => sort_insert comparefn x sorted) l [].

End JSArray.

(** [(a, b) => b.alike - a.alike] *)
Definition by_alike_desc (a b : scored) : float := (alike b - alike a)%float.

(* ===================================================================== *)
(** * The comparison operations *)
(* ===================================================================== *)

Section Finder.

(** [let model = null]: once loaded, the pipeline; called as
    [await model(text, { pooling: "mean", normalize: true })] and read with
    [Array.from(embedding.data)], it is a function from a text to its
    embedding. *)
Variable model : option (item -> embedding_t).

(** [!model] is [negb loaded]. *)
Definition loaded : bool :=
  match model with Some _ => true | None => false end.

(** [modelNotLoadedErrorMessage()] *)
Definition modelNotLoadedErrorMessage {A} : M A := throw ModelNotLoaded.

(** A call of the provider; calling [null] is a TypeError. *)
Definition embed (text : item) : M embedding_t :=
  match model with
  | None => throw TypeError
  | Some f => _ ← emit (Embedded text); mret (f text)
  end.

(** The call [calculateCosineSimilarity(embedding1, embedding2)] with what
    [classify] holds at that point: [null] for an embedding that was said
    to be cached but was not supplied.  [embedding1.length] of [null], and
    [embedding2[i]] of [null] once the loop runs, are TypeErrors. *)
Definition similarity_of (embedding1 embedding2 : option embedding_t)
    : M float :=
  match embedding1 with
  | None => throw TypeError
  | Some e1 =>
      match embedding2 with
      | Some e2 =>
          _ ← emit (Similarity e1 (Some e2));
          mret (calculateCosineSimilarity e1 e2)
      | None =>
          match e1 with
          | [] =>
              _ ← emit (Similarity [] None);
              mret (calculateCosineSimilarity [] [])
          | _ :: _ => throw TypeError
          end
      end
  end.

(** [classify]; the result is what its callers destructure:
    [{ sentenceTwo, alike, embedding1Cache }]. *)
Definition classify (sentenceOne : string) (sentenceTwo : item)
    (embedding1Cache : option embedding_t) (doesCache1Exist : bool)
    (embedding2Cache : option embedding_t) (doesCache2Exist : bool)
    : M (item * float * option embedding_t) :=
  if negb doesCache2Exist && negb loaded then modelNotLoadedErrorMessage
  else
    embedding1 ← (if doesCache1Exist then mret embedding1Cache
                  else e ← embed (Str sentenceOne); mret (Some e));
    embedding2 ← (if doesCache2Exist then mret embedding2Cache
                  else e ← embed sentenceTwo; mret (Some e));
    similarity ← similarity_of embedding1 embedding2;
    mret (sentenceTwo, similarity, embedding1).

(** [array[i].sentenceTwo ? array[i].sentenceTwo : array[i]] *)
Definition text_of (x : item) : item :=
  match prop_sentenceTwo x with
  | Some s => if truthy (Some s) then Str s else x
  | None => x
  end.

(** The [for] loop of [compareSentenceToArray], from index [i] on, over
    the elements not yet visited; [cache] is the variable of that name. *)
Fixpoint compare_loop (sentence : string) (doesCache2Exist : bool)
    (i : nat) (cache : option embedding_t) (rest : list item)
    : M (list scored) :=
  match rest with
  | [] => mret []
  | x :: rest =>
      '(sentenceTwo0, alike0, embedding1Cache) ←
        classify sentence (text_of x) cache (negb (i =? 0)%nat)
          (prop_embedding x) doesCache2Exist;
      let cache := if (i =? 0)%nat then embedding1Cache else cache in
      done ← compare_loop sentence doesCache2Exist (S i) cache rest;
      mret (Scored sentenceTwo0 alike0 :: done)
  end.

(** [compareSentenceToArray(sentence, array, doesCache2Exist = false)].
    Arrays are values here; the copy it takes and writes to is modelled
    with the store in [Store.compareSentenceToArray]. *)
Definition compareSentenceToArray (sentence : string) (array0 : list item)
    (doesCache2Exist : bool) : M compared :=
  if negb doesCache2Exist && negb loaded then modelNotLoadedErrorMessage
  else
    array0 ← compare_loop sentence doesCache2Exist 0 None array0;
    mret (Compared sentence array0).

(** [arrayInOrder(sentence, array)] *)
Definition arrayInOrder (sentence : string) (array0 : list item)
    : M compared :=
  if negb loaded then modelNotLoadedErrorMessage
  else
    r ← compareSentenceToArray sentence array0 false;
    let returnedArray := JSArray.sort by_alike_desc (array r) in
    mret (Compared (sentenceOne r) returnedArray).

(** [compareTwoSentences(sentenceOne, sentenceTwo)]:
    [{ sentenceOne, sentenceTwo, alike }]. *)
Definition compareTwoSentences (sentenceOne0 sentenceTwo0 : string)
    : M (string * string * float) :=
  if negb loaded then modelNotLoadedErrorMessage
  else
    '(_, alike0, _) ←
      classify sentenceOne0 (Str sentenceTwo0) None false None false;
    mret (sentenceOne0, sentenceTwo0, alike0).

(** [getCached(array)] *)
Fixpoint getCached_loop (rest : list string) : M (list item) :=
  match rest with
  | [] => mret []
  | x :: rest =>
      embedding0 ← embed (Str x);
      done ← getCached_loop rest;
      mret (Entry (Some x) embedding0 :: done)
  end.

Definition getCached (array0 : list string) : M (list item) :=
  if negb loaded then modelNotLoadedErrorMessage
  else getCached_loop array0.

(** The [cachedArray.map(...)] that opens both cached operations: it
    throws at the first item without a truthy [sentenceTwo]; the array it
    builds is dropped. *)
Fixpoint check_cached (cachedArray : list item) : result (list item) :=
  match cachedArray with
  | [] => Ok []
  | x :: rest =>
      if negb (truthy (prop_sentenceTwo x)) then Throw InvalidCacheEntry
      else
        match prop_embedding x with
        | None => Throw TypeError
        | Some e =>
            done ← check_cached rest;
            Ok (Entry (prop_sentenceTwo x) e :: done)
        end
  end.

(** [cachedCompareSentenceToArray(sentence, cachedArray)] *)
Definition cachedCompareSentenceToArray (sentence : string)
    (cachedArray : list item) : M compared :=
  _ ← lift (check_cached cachedArray);
  r ← compareSentenceToArray sentence cachedArray true;
  mret (Compared (sentenceOne r) (array r)).

(** [cachedArrayInOrder(sentence, cachedArray)] *)
Definition cachedArrayInOrder (sentence : string)
    (cachedArray : list item) : M compared :=
  _ ← lift (check_cached cachedArray);
  r ← compareSentenceToArray sentence cachedArray true;
  let returnedArray := JSArray.sort by_alike_desc (array r) in
  mret (Compared (sentenceOne r) returnedArray).

(** The [for] loop of [getTop]. *)
Fixpoint getTop_loop (sentence : string) (i : nat)
    (cache : option embedding_t) (list0 : LinkedListInAlikeOrder.t)
    (rest : list item) : M LinkedListInAlikeOrder.t :=
  match rest with
  | [] => mret list0
  | x :: rest =>
      '(sentenceTwo0, alike0, embedding1Cache) ←
        classify sentence x cache (negb (i =? 0)%nat) None false;
      let cache := if (i =? 0)%nat then embedding1Cache else cache in
      list0 ← lift (LinkedListInAlikeOrder.addNode
                      (Scored sentenceTwo0 alike0) list0);
      getTop_loop sentence (S i) cache list0 rest
  end.

(** [getTop(sentence, array, numberOfResults)] *)
Definition getTop (sentence : string) (array0 : list item)
    (numberOfResults : Z) : M compared :=
  if negb loaded then modelNotLoadedErrorMessage
  else if (numberOfResults <=? 0)%Z then throw InvalidK
  else
    let arrayCopy := array0 in
    let numberOfResults :=
      Z.min numberOfResults (Z.of_nat (length arrayCopy)) in
    let list0 := LinkedListInAlikeOrder.new numberOfResults in
    list0 ← getTop_loop sentence 0 None list0 array0;
    resultantArray ← lift (LinkedListInAlikeOrder.getArray list0);
    mret (Compared sentence resultantArray).

End Finder.

(* ===================================================================== *)
(** * [compareSentenceToArray] on the store *)
(* ===================================================================== *)

(** Arrays are mutable objects that callers share by reference.  Here
    [compareSentenceToArray] is written against a store of arrays, with the
    copy [array = [...array]] and the writes [array[i] = {...}] as the
    source has them. *)

Module Store.

Abbreviation ref := nat.

(** An element of an array: a candidate of the caller, or a result record
    written over it. *)
Inductive cell :=
| CItem (x : item)
| CScored (r : scored).

Abbreviation store := (gmap ref (list cell)).

(** A computation over the store and the events. *)
Definition SM (A : Type) : Type :=
  store -> list event -> result A * store * list event.

#[global] Instance SM_ret : MRet SM := fun A a σ tr => (Ok a, σ, tr).
#[global] Instance SM_bind : MBind SM := fun A B k m σ tr =>
  match m σ tr with
  | (Ok a, σ', tr') => k a σ' tr'
  | (Throw e, σ', tr') => (Throw e, σ', tr')
  | (Diverge, σ', tr') => (Diverge, σ', tr')
  end.

Definition sthrow {A} (e : error) : SM A := fun σ tr => (Throw e, σ, tr).

(** An [await] of a computation that does not touch arrays. *)
Definition run {A} (m : M A) : SM A := fun σ tr =>
  let '(r, tr') := m tr in (r, σ, tr').

(** [[...array]]: a new array object with the same elements. *)
Definition spread (a : ref) : SM ref := fun σ tr =>
  match σ !! a with
  | Some cells => let r := fresh (dom σ) in (Ok r, <[r := cells]> σ, tr)
  | None => (Throw TypeError, σ, tr)
  end.

(** [array.length] *)
Definition len (a : ref) : SM nat := fun σ tr =>
  match σ !! a with
  | Some cells => (Ok (length cells), σ, tr)
  | None => (Throw TypeError, σ, tr)
  end.

(** [array[i]], read as a candidate.  The loop reads index [i] before it
    writes it, so in an array of candidates it never meets a result. *)
Definition candidate (a : ref) (i : nat) : SM item := fun σ tr =>
  match σ !! a with
  | Some cells =>
      match cells !! i with
      | Some (CItem x) => (Ok x, σ, tr)
      | _ => (Throw TypeError, σ, tr)
      end
  | None => (Throw TypeError, σ, tr)
  end.

(** [array[i] = c], for [i] within the array. *)
Definition assign (a : ref) (i : nat) (c : cell) : SM unit := fun σ tr =>
  match σ !! a with
  | Some cells => (Ok tt, <[a := <[i := c]> cells]> σ, tr)
  | None => (Throw TypeError, σ, tr)
  end.

Section WithModel.
Variable model : option (item -> embedding_t).

(** The [for] loop, with [rounds] indices still to visit. *)
Fixpoint loop (sentence : string) (doesCache2Exist : bool) (rounds : nat)
    (i : nat) (cache : option embedding_t) (array0 : ref) : SM unit :=
  match rounds with
  | O => mret tt
  | S rounds =>
      x ← candidate array0 i;
      '(sentenceTwo0, alike0, embedding1Cache) ←
        run (classify model sentence (text_of x) cache (negb (i =? 0)%nat)
               (prop_embedding x) doesCache2Exist);
      let cache := if (i =? 0)%nat then embedding1Cache else cache in
      _ ← assign array0 i (CScored (Scored sentenceTwo0 alike0));
      loop sentence doesCache2Exist rounds (S i) cache array0
  end.

(** [compareSentenceToArray(sentence, array, doesCache2Exist)]: the
    result is [{ sentenceOne, array }], the array by reference. *)
Definition compareSentenceToArray (sentence : string) (array0 : ref)
    (doesCache2Exist : bool) : SM (string * ref) :=
  if negb doesCache2Exist && negb (loaded model) then sthrow ModelNotLoaded
  else
    array0 ← spread array0;
    n ← len array0;
    _ ← loop sentence doesCache2Exist n 0 None array0;
    mret (sentence, array0).

End WithModel.
End Store.

(* ===================================================================== *)
(** * Loading the model: [PipelineSingleton], [loadModel], [getProgress] *)
(* ===================================================================== *)

(** [pipeline] belongs to the transformers library.  A call of it returns
    a promise; until the promise settles the library calls the
    [progress_callback] it was given with progress objects.  The calls of
    [loadModel] run one after the other, each awaited. *)

Module Loader.

(** How a promise settles: with the pipeline, or with an error (its
    rendering in a template string). *)
Inductive settlement :=
| Resolved (p : item -> embedding_t)
| Rejected (error : string).

(** How a call of [loadModel] ends: it returns, or throws
    [new Error(message)]. *)
Inductive outcome := Returned | Thrown (message : string).

Section WithPipeline.

(** The object a [progress_callback] receives. *)
Variable data : Type.

(** The promise of one call of [pipeline]: the progress objects reported
    while it is pending, and how it settles. *)
Record promise := Promise {
  notifications : list data;
  settles : settlement
}.

(** The [n]-th call of [pipeline(task, model, { progress_callback })],
    counted from 0. *)
Variable pipeline : nat -> promise.

(** [PipelineSingleton.instance], [let model], [let progress], and the
    number of calls of [pipeline] so far. *)
Record state := State {
  instance : option promise;
  model : option (item -> embedding_t);
  progress : option data;
  pipeline_calls : nat
}.

Definition set_instance (v : option promise) (st : state) : state :=
  State v (model st) (progress st) (pipeline_calls st).
Definition set_model (v : option (item -> embedding_t)) (st : state) : state :=
  State (instance st) v (progress st) (pipeline_calls st).
Definition set_progress (v : option data) (st : state) : state :=
  State (instance st) (model st) v (pipeline_calls st).
Definition count_call (st : state) : state :=
  State (instance st) (model st) (progress st) (S (pipeline_calls st)).

(** The module as it is imported. *)
Definition initial : state := State None None None 0.

(** [PipelineSingleton.getInstance(progress_callback)]: the promise, and
    the state once the promise has settled.  Only the call that finds
    [instance === null] calls [pipeline]; the callback of that call is
    the one the library runs. *)
Definition getInstance (progress_callback : data -> state -> state)
    (st : state) : promise * state :=
  match instance st with
  | None =>
      let created := pipeline (pipeline_calls st) in
      let st := set_instance (Some created) (count_call st) in
      (created,
       fold_left (fun st d => progress_callback d st) (notifications created) st)
  | Some existing => (existing, st)
  end.

(** [loadModel()] *)
Definition loadModel (st : state) : outcome * state :=
  let '(awaited, st) :=
    getInstance (fun d st => set_progress (Some d) st) st in
  match settles awaited with
  | Resolved p => (Returned, set_model (Some p) st)
  | Rejected error =>
      (Thrown ("Unable to load Model due to " ++ error), st)
  end.

(** [getProgress()] *)
Definition getProgress (st : state) : option data := progress st.

(** The states the module goes through: any number of [loadModel]
    calls. *)
Inductive reachable : state -> Prop :=
| reachable_initial : reachable initial
| reachable_loadModel st : reachable st -> reachable (loadModel st).2.

End WithPipeline.

Arguments Promise {data} notifications settles.
Arguments notifications {data} p.
Arguments settles {data} p.
Arguments State {data} instance model progress pipeline_calls.
Arguments instance {data} s.
Arguments model {data} s.
Arguments progress {data} s.
Arguments pipeline_calls {data} s.
Arguments set_instance {data} v st.
Arguments set_model {data} v st.
Arguments set_progress {data} v st.
Arguments count_call {data} st.
Arguments initial {data}.
Arguments getProgress {data} st.
Arguments loadModel {data} pipeline st.
Arguments getInstance {data} pipeline progress_callback st.
Arguments reachable {data} pipeline st.

End Loader.

(** The texts the provider was called on, in the order of the calls. *)
Definition provider_calls (tr : list event) : list item :=
  omap (fun ev => match ev with Embedded t => Some t | Similarity _ _ => None end) tr.

(* ===================================================================== *)
(** * Concrete inputs *)
(* ===================================================================== *)

#[local] Set Warnings "-inexact-float".

Module Examples.

(** A provider with two dimensions. *)
Definition toy_model (text : item) : embedding_t :=
  match text with
  | Str "cats" => [1; 0]
  | Str "dogs" => [0.5; 0.5]
  | Str _ => [0; 1]
  | Entry _ e => e
  end%float.

(** A provider of dimension one that embeds every text alike. *)
Definition flat_model (_ : item) : embedding_t := [1%float].

(** The scores [0.3, 0.9, 0.1, 0.9], in arrival order. *)
Definition fed : list scored :=
  [Scored (Str "first") 0.3; Scored (Str "second") 0.9;
   Scored (Str "third") 0.1; Scored (Str "fourth") 0.9]%float.

End Examples.

(** Inputs with a score that is not a number. *)
Module NaNExamples.

(** A provider that embeds the empty text as the zero vector, whose score
    against anything is [0 / 0]. *)
Definition void_model (text : item) : embedding_t :=
  match text with
  | Str "" => [0; 0]%float
  | _ => Examples.toy_model text
  end.

(** The scores [NaN, 0.9], in arrival order. *)
Definition fed : list scored :=
  [Scored (Str "first") nan; Scored (Str "second") 0.9%float].

End NaNExamples.

(** Downloads, for [Loader]: progress is reported as a percentage. *)
Module LoaderExamples.
Import Loader.

(** A download that reports twice and succeeds, at every call. *)
Definition steady (_ : nat) : promise nat :=
  Promise [10; 100]%nat (Resolved Examples.toy_model).

(** A download that fails at the first call and would succeed at any
    later one. *)
Definition flaky (n : nat) : promise nat :=
  match n with
  | O => Promise [10]%nat (Rejected "Error: offline")
  | S _ => Promise [10; 100]%nat (Resolved Examples.toy_model)
  end.

End LoaderExamples.

(** The list of capacity 2 after the scores of [Examples.fed]. *)
Definition fed_list : LinkedListInAlikeOrder.t :=
  match
    LinkedListInAlikeOrder.addNodes Examples.fed (LinkedListInAlikeOrder.new 2)
  with
  | Ok l => l
  | _ => LinkedListInAlikeOrder.new 2
  end.

(** The operations run on these inputs. *)

Module Checks.
Import Examples.

Example arrayInOrder_toy :
  arrayInOrder (Some toy_model) "cats" [Str "dogs"; Str "cats"; Str "xyz"] [] =
  (Ok (Compared "cats"
         [Scored (Str "cats") 1; Scored (Str "dogs") 0.70710678118654746;
          Scored (Str "xyz") 0]),
   [Embedded (Str "cats");
    Embedded (Str "dogs"); Similarity [1; 0] (Some [0.5; 0.5]);
    Embedded (Str "cats"); Similarity [1; 0] (Some [1; 0]);
    Embedded (Str "xyz"); Similarity [1; 0] (Some [0; 1])])%float.
Proof. vm_compute. reflexivity. Qed.

Example getTop_toy :
  (getTop (Some toy_model) "cats" [Str "dogs"; Str "cats"; Str "xyz"] 2 []).1 =
  Ok (Compared "cats"
        [Scored (Str "cats") 1; Scored (Str "dogs") 0.70710678118654746])%float.
Proof. vm_compute. reflexivity. Qed.

Example getTop_nonpositive :
  getTop (Some toy_model) "cats" [Str "dogs"] 0 [] = (Throw InvalidK, []).
Proof. reflexivity. Qed.

Example getCached_toy :
  (getCached (Some toy_model) ["dogs"; "cats"] []).1 =
  Ok [Entry (Some "dogs") [0.5; 0.5]; Entry (Some "cats") [1; 0]]%float.
Proof. reflexivity. Qed.

Example cachedArrayInOrder_toy :
  (cachedArrayInOrder (Some toy_model) "cats"
     [Entry (Some "dogs") [0.5; 0.5]; Entry (Some "cats") [1; 0]]%float []).1 =
  Ok (Compared "cats"
        [Scored (Str "cats") 1; Scored (Str "dogs") 0.70710678118654746])%float.
Proof. vm_compute. reflexivity. Qed.

(** A list of capacity 0 cannot take a node: [_deleteLastNode] reads
    [newTail.next] of [null]. *)
Example addNode_capacity_0 :
  LinkedListInAlikeOrder.addNode (Scored (Str "a") 1%float)
    (LinkedListInAlikeOrder.new 0) = Throw TypeError.
Proof. vm_compute. reflexivity. Qed.

End Checks.

(* ===================================================================== *)
(** * Properties of JavaScript numbers *)
(* ===================================================================== *)

Module NumFacts.
Import Num.
Local Open Scope Z_scope.

(** ** The order on the specification side *)

Definition cmp (x y : float) : option comparison :=
  SFcompare (Prim2SF x) (Prim2SF y).

Lemma le_cmp x y :
  le x y = match cmp x y with Some (Lt | Eq) => true | _ => false end.
Proof. unfold le, cmp. rewrite FloatAxioms.leb_spec. reflexivity. Qed.

Lemma lt_cmp x y :
  lt x y = match cmp x y with Some Lt => true | _ => false end.
Proof. unfold lt, cmp. rewrite FloatAxioms.ltb_spec. reflexivity. Qed.

Lemma eq_cmp x y :
  eq x y = match cmp x y with Some Eq => true | _ => false end.
Proof. unfold eq, cmp. rewrite FloatAxioms.eqb_spec. reflexivity. Qed.

Lemma isNaN_spec x : isNaN x = true <-> Prim2SF x = S754_nan.
Proof.
  unfold isNaN, is_nan. rewrite FloatAxioms.eqb_spec. unfold SFeqb.
  destruct (Prim2SF x) as [s|s| |s m e]; simpl.
  - split; discriminate.
  - destruct s; split; discriminate.
  - split; reflexivity.
  - destruct s; rewrite Z.compare_refl, Pos.compare_cont_refl; split; discriminate.
Qed.

Lemma isNaN_false x : isNaN x = false <-> Prim2SF x <> S754_nan.
Proof.
  rewrite <- isNaN_spec. destruct (isNaN x); split; congruence.
Qed.

(** [SFcompare] is a comparison of keys: the three lemmas below are all
    the ranking proofs need of it. *)

Ltac cmp_cases :=
  repeat match goal with
  | |- context [Z.compare ?a ?b] => destruct (Z.compare_spec a b)
  | |- context [Pos.compare_cont Eq ?a ?b] =>
      change (Pos.compare_cont Eq a b) with (Pos.compare a b);
      destruct (Pos.compare_spec a b)
  | H : context [Z.compare ?a ?b] |- _ => destruct (Z.compare_spec a b)
  | H : context [Pos.compare_cont Eq ?a ?b] |- _ =>
      change (Pos.compare_cont Eq a b) with (Pos.compare a b) in H;
      destruct (Pos.compare_spec a b)
  end.

Lemma SFcompare_None X Y :
  SFcompare X Y = None <-> X = S754_nan \/ Y = S754_nan.
Proof.
  destruct X as [s|s| |s m e], Y as [t|t| |t n f]; simpl;
    repeat match goal with b : bool |- _ => destruct b end;
    (split; [try discriminate; auto | intros [?|?]; try discriminate; auto]).
Qed.

Lemma SFcompare_antisym X Y :
  SFcompare Y X = option_map CompOpp (SFcompare X Y).
Proof.
  destruct X as [s|s| |s m e], Y as [t|t| |t n f]; simpl;
    try reflexivity; try (destruct s; reflexivity);
    try (destruct t; reflexivity); try (destruct s, t; reflexivity).
  destruct s, t; try reflexivity;
    rewrite (Z.compare_antisym e f);
    destruct (e ?= f); simpl; try reflexivity;
    change (Pos.compare_cont Eq n m) with (Pos.compare n m);
    change (Pos.compare_cont Eq m n) with (Pos.compare m n);
    rewrite (Pos.compare_antisym m n); reflexivity.
Qed.

Definition le_c (c : option comparison) : bool :=
  match c with Some (Lt | Eq) => true | _ => false end.

Lemma SFcompare_le_trans X Y Z :
  le_c (SFcompare X Y) = true -> le_c (SFcompare Y Z) = true ->
  le_c (SFcompare X Z) = true.
Proof.
  destruct X as [s|s| |s m e], Y as [t|t| |t n f], Z as [u|u| |u k g];
    simpl; try discriminate; try reflexivity;
    try (destruct s; simpl; try discriminate; try reflexivity);
    try (destruct t; simpl; try discriminate; try reflexivity);
    try (destruct u; simpl; try discriminate; try reflexivity);
    intros H1 H2; cmp_cases; subst;
    try discriminate; try reflexivity; try lia.
Qed.

(** ** The sign of a difference

    The comparator of the source is [(a, b) => b.alike - a.alike]; what a
    sort reads of it is its sign.  The lemmas below show that binary64
    subtraction (with gradual underflow) never rounds the difference of
    two distinct numbers to zero, so the sign of [x - y] is the order of
    [x] and [y]. *)

Lemma digits2_pos_size m : digits2_pos m = Pos.size m.
Proof. induction m; simpl; congruence. Qed.

Lemma digits_bounds m :
  2 ^ (Zpos (digits2_pos m) - 1) <= Zpos m < 2 ^ Zpos (digits2_pos m).
Proof.
  rewrite digits2_pos_size. split.
  - pose proof (Pos.size_le m) as H.
    assert (Zpos (2 ^ Pos.size m) <= Zpos m~0) by exact H.
    rewrite Pos2Z.inj_pow in H0.
    replace (Zpos (Pos.size m)) with ((Zpos (Pos.size m) - 1) + 1) in H0 by lia.
    rewrite Z.pow_add_r in H0 by lia. lia.
  - pose proof (Pos.size_gt m) as H.
    assert (Zpos m < Zpos (2 ^ Pos.size m)) by exact H.
    now rewrite Pos2Z.inj_pow in H0.
Qed.

Lemma shr_1_m r : 0 <= shr_m r -> shr_m (shr_1 r) = Z.div2 (shr_m r).
Proof.
  destruct r as [m a b]; simpl. destruct m as [|p|p]; try reflexivity.
  - destruct p; reflexivity.
  - lia.
Qed.

Lemma iter_shr_1_m p : forall r, 0 <= shr_m r ->
  shr_m (SpecFloat.iter_pos shr_1 p r) = shr_m r / 2 ^ Zpos p.
Proof.
  induction p as [p IH|p IH|]; intros r Hr; simpl SpecFloat.iter_pos.
  - assert (H1 : 0 <= shr_m (shr_1 r)).
    { rewrite shr_1_m by assumption. rewrite Z.div2_div. apply Z.div_pos; lia. }
    assert (H2 : 0 <= shr_m (SpecFloat.iter_pos shr_1 p (shr_1 r))).
    { rewrite IH by assumption. apply Z.div_pos; lia. }
    rewrite IH by assumption. rewrite IH by assumption.
    rewrite shr_1_m by assumption. rewrite Z.div2_div.
    rewrite !Z.div_div by lia.
    f_equal. rewrite Pos2Z.inj_xI.
    replace (2 * Zpos p + 1) with (Z.succ (Zpos p + Zpos p)) by lia.
    rewrite Z.pow_succ_r, Z.pow_add_r by lia. lia.
  - assert (H2 : 0 <= shr_m (SpecFloat.iter_pos shr_1 p r)).
    { rewrite IH by assumption. apply Z.div_pos; lia. }
    rewrite IH by assumption. rewrite IH by assumption.
    rewrite !Z.div_div by lia.
    f_equal. rewrite <- Z.pow_add_r by lia. f_equal. lia.
  - rewrite shr_1_m by assumption. rewrite Z.div2_div. reflexivity.
Qed.

Local Abbreviation fexp64 := (fexp prec emax).

Lemma fexp64_eq e : fexp64 e = Z.max (e - 53) (-1074).
Proof. reflexivity. Qed.

Lemma shr_fexp_pos M E l :
  0 < M -> -1074 <= E ->
  0 < shr_m (fst (shr_fexp prec emax M E l)) /\ -1074 <= snd (shr_fexp prec emax M E l).
Proof.
  intros HM HE. unfold shr_fexp, shr. rewrite fexp64_eq.
  assert (Hm : shr_m (shr_record_of_loc M l) = M).
  { destruct l as [|[| |]]; reflexivity. }
  destruct (Z.max (Zdigits2 M + E - 53) (-1074) - E) as [|p|p] eqn:Hn; simpl.
  - lia.
  - rewrite iter_shr_1_m by lia. rewrite Hm. split; [|lia].
    destruct M as [|m|m]; try lia. cbn [Zdigits2] in Hn.
    pose proof (digits_bounds m) as [Hlo _].
    apply Z.div_str_pos. split; [apply Z.pow_pos_nonneg; lia|].
    eapply Z.le_trans; [|exact Hlo].
    apply Z.pow_le_mono_r; lia.
  - lia.
Qed.

Lemma round_nearest_even_pos m l : 0 < m -> 0 < round_nearest_even m l.
Proof.
  intros H. destruct l as [|[| |]]; simpl; try lia.
  destruct (Z.even m); lia.
Qed.

Definition signed (s : bool) (R : spec_float) : Prop :=
  (exists m e, R = S754_finite s m e) \/ R = S754_infinity s.

Lemma binary_round_aux_signed s M E l :
  0 < M -> -1074 <= E -> signed s (binary_round_aux prec emax s M E l).
Proof.
  intros HM HE. unfold binary_round_aux.
  pose proof (shr_fexp_pos M E l HM HE) as [H1 H2].
  destruct (shr_fexp prec emax M E l) as [r1 e1]; simpl in H1, H2.
  pose proof (round_nearest_even_pos (shr_m r1) (loc_of_shr_record r1) H1) as H3.
  pose proof (shr_fexp_pos _ e1 loc_Exact H3 H2) as [H4 H5].
  destruct (shr_fexp prec emax _ e1 loc_Exact) as [r2 e2]; simpl in H4, H5.
  destruct (shr_m r2) as [|m|m]; try lia.
  destruct (e2 <=? emax - prec); [left; eauto | right; reflexivity].
Qed.

Lemma binary_round_signed s m e :
  -1074 <= e -> signed s (binary_round prec emax s m e).
Proof.
  intros He. unfold binary_round.
  destruct (shl_align m e (fexp64 (Z.pos (digits2_pos m) + e))) as [mz ez] eqn:Hs.
  apply binary_round_aux_signed; [lia|].
  unfold shl_align in Hs. rewrite fexp64_eq in Hs.
  destruct (Z.max (Z.pos (digits2_pos m) + e - 53) (-1074) - e) eqn:Hd;
    inversion Hs; subst; lia.
Qed.

Definition positive_sf (R : spec_float) : bool := SFltb (S754_zero false) R.

Lemma binary_normalize_positive D e :
  -1074 <= e -> positive_sf (binary_normalize prec emax D e false) = (0 <? D).
Proof.
  intros He. destruct D as [|m|m]; simpl; [reflexivity| |].
  - destruct (binary_round_signed false m e He) as [(m' & e' & ->)| ->]; reflexivity.
  - destruct (binary_round_signed true m e He) as [(m' & e' & ->)| ->]; reflexivity.
Qed.

Lemma iter_xO m d : Zpos (Pos.iter xO m d) = Zpos m * 2 ^ Zpos d.
Proof.
  revert m. induction d using Pos.peano_ind; intros m.
  - simpl. lia.
  - rewrite Pos.iter_succ. rewrite Pos2Z.inj_xO, IHd.
    rewrite Pos2Z.inj_succ, Z.pow_succ_r by lia. lia.
Qed.

Lemma shl_align_min m e e' :
  e' <= e ->
  Zpos (fst (shl_align m e e')) = Zpos m * 2 ^ (e - e').
Proof.
  intros H. unfold shl_align.
  destruct (e' - e) as [|d|d] eqn:Hd; cbn [fst].
  - replace (e - e') with 0 by lia. rewrite Z.pow_0_r. lia.
  - lia.
  - rewrite iter_xO. f_equal. f_equal.
    pose proof (Pos2Z.opp_pos d). lia.
Qed.

Lemma bounded_inv m e :
  bounded prec emax m e = true ->
  -1074 <= e /\ Zpos m < 2 ^ 53 /\ (-1074 < e -> 2 ^ 52 <= Zpos m).
Proof.
  unfold bounded, canonical_mantissa. rewrite fexp64_eq.
  intros H. apply andb_prop in H as [H _]. apply Z.eqb_eq in H.
  pose proof (digits_bounds m) as [Hlo Hhi].
  split; [lia|]. split.
  - eapply Z.lt_le_trans; [exact Hhi|]. apply Z.pow_le_mono_r; lia.
  - intros He. replace (Zpos (digits2_pos m)) with 53 in Hlo by lia. exact Hlo.
Qed.

Lemma aligned_lt mx ex my ey :
  bounded prec emax mx ex = true -> bounded prec emax my ey = true ->
  ex < ey -> Zpos mx < Zpos my * 2 ^ (ey - ex).
Proof.
  intros Hx Hy Hlt.
  apply bounded_inv in Hx as (Hx1 & Hx2 & _).
  apply bounded_inv in Hy as (Hy1 & _ & Hy3).
  specialize (Hy3 ltac:(lia)).
  assert (2 <= 2 ^ (ey - ex)).
  { change 2 with (2 ^ 1) at 1. apply Z.pow_le_mono_r; lia. }
  change (2 ^ 53) with (2 ^ 52 * 2) in Hx2. nia.
Qed.

Ltac ltb_fin :=
  match goal with
  | |- (0 <? _) = true => apply Z.ltb_lt; lia
  | |- (0 <? _) = false => apply Z.ltb_ge; lia
  end.

Lemma SFsub_positive X Y :
  valid_binary X = true -> valid_binary Y = true ->
  positive_sf (SF64sub X Y) = SFltb Y X.
Proof.
  intros HX HY.
  destruct X as [s|s| |s m e], Y as [t|t| |t n f];
    try (destruct s; reflexivity); try (destruct t; reflexivity);
    try (destruct s, t; reflexivity); try reflexivity.
  simpl in HX, HY. unfold SF64sub, SFsub.
  pose proof (bounded_inv _ _ HX) as (He & _ & _).
  pose proof (bounded_inv _ _ HY) as (Hf & _ & _).
  rewrite binary_normalize_positive by lia.
  rewrite !shl_align_min by lia.
  unfold SFltb, SFcompare.
  change (Pos.compare_cont Eq n m) with (Pos.compare n m).
  destruct (Z.compare_spec f e) as [Heq|Hlt|Hgt].
  - subst f. rewrite Z.min_id, Z.sub_diag, Z.pow_0_r, !Z.mul_1_r.
    destruct (Pos.compare_spec n m); destruct s, t; cbn [cond_Zopp CompOpp];
      ltb_fin.
  - pose proof (aligned_lt _ _ _ _ HY HX Hlt).
    replace (Z.min e f) with f by lia. rewrite Z.sub_diag, Z.pow_0_r, Z.mul_1_r.
    destruct s, t; cbn [cond_Zopp]; ltb_fin.
  - pose proof (aligned_lt _ _ _ _ HX HY Hgt).
    replace (Z.min e f) with e by lia. rewrite Z.sub_diag, Z.pow_0_r, Z.mul_1_r.
    destruct s, t; cbn [cond_Zopp]; ltb_fin.
Qed.

(** In JavaScript terms: [x - y > 0] exactly when [y < x], for all numbers
    (both sides are false when a NaN is involved or when the difference of
    two infinities is NaN). *)
Lemma sub_positive (x y : float) : lt 0 (x - y) = lt y x.
Proof.
  unfold lt. rewrite !FloatAxioms.ltb_spec, FloatAxioms.sub_spec.
  change (Prim2SF 0) with (S754_zero false).
  apply SFsub_positive; apply Prim2SF_valid.
Qed.

(** ** Multiplication commutes *)

Lemma SFmul_comm X Y : SF64mul X Y = SF64mul Y X.
Proof.
  destruct X as [s|s| |s m e], Y as [t|t| |t n f]; unfold SF64mul; simpl;
    try reflexivity; try (rewrite (xorb_comm s t); reflexivity).
  rewrite (xorb_comm s t), (Pos.mul_comm m n), (Z.add_comm e f). reflexivity.
Qed.

Lemma mul_comm (x y : float) : (x * y)%float = (y * x)%float.
Proof.
  apply Prim2SF_inj. rewrite !FloatAxioms.mul_spec. apply SFmul_comm.
Qed.

(** ** The order on numbers that are not NaN *)

Lemma cmp_Some x y :
  isNaN x = false -> isNaN y = false -> exists c, cmp x y = Some c.
Proof.
  intros Hx Hy. apply isNaN_false in Hx, Hy. unfold cmp.
  destruct (SFcompare (Prim2SF x) (Prim2SF y)) as [c|] eqn:E; eauto.
  apply SFcompare_None in E. tauto.
Qed.

Lemma cmp_antisym x y : cmp y x = option_map CompOpp (cmp x y).
Proof. apply SFcompare_antisym. Qed.

Lemma le_lt_total x y :
  isNaN x = false -> isNaN y = false -> le x y = negb (lt y x).
Proof.
  intros Hx Hy. rewrite le_cmp, lt_cmp, (cmp_antisym x y).
  destruct (cmp_Some x y Hx Hy) as [c ->]. destruct c; reflexivity.
Qed.

Lemma lt_le x y : lt x y = true -> le x y = true.
Proof. rewrite le_cmp, lt_cmp. destruct (cmp x y) as [[| |]|]; congruence. Qed.

Lemma lt_not_le x y : lt x y = true -> le y x = false.
Proof.
  rewrite le_cmp, lt_cmp, (cmp_antisym x y).
  destruct (cmp x y) as [[| |]|]; simpl; congruence.
Qed.

Lemma le_trans x y z : le x y = true -> le y z = true -> le x z = true.
Proof. rewrite !le_cmp. apply SFcompare_le_trans. Qed.

Lemma eq_le x y : eq x y = le x y && le y x.
Proof.
  rewrite eq_cmp, !le_cmp, (cmp_antisym x y).
  destruct (cmp x y) as [[| |]|]; reflexivity.
Qed.

End NumFacts.

(* ===================================================================== *)
(** * The ranking list as a sequence *)
(* ===================================================================== *)

(** What the list denotes: the sequence of candidates from head to tail.
    The operations on sequences below are what [addNode] computes on the
    chain of nodes ([addNode_repr]). *)

Module Ranking.

(** The index [_getIndex] finds: the first candidate, from the head, whose
    score is [<=] the new one. *)
Fixpoint index_of (a : float) (vs : list scored) : nat :=
  match vs with
  | [] => 0
  | v :: vs => if Num.le (alike v) a then 0 else S (index_of a vs)
  end.

Definition insert_at (i : nat) (o : scored) (vs : list scored) : list scored :=
  take i vs ++ o :: drop i vs.

(** [_audit]: over capacity, the tail goes. *)
Definition audit (K : Z) (vs : list scored) : list scored :=
  if (K <? Z.of_nat (length vs))%Z then removelast vs else vs.

Definition add (K : Z) (o : scored) (vs : list scored) : list scored :=
  audit K (insert_at (index_of (alike o) vs) o vs).

Definition feed (K : Z) (os : list scored) (vs : list scored) : list scored :=
  fold_left (fun vs o => add K o vs) os vs.

End Ranking.

Module ListRepr.
Module L := LinkedListInAlikeOrder.
Import Ranking.

Abbreviation ref := L.ref.
Abbreviation node := L.node.

Definition hd_or (rs : list ref) (q : option ref) : option ref :=
  match rs with [] => q | r :: _ => Some r end.

Definition last_or (rs : list ref) (p : option ref) : option ref :=
  match last rs with Some r => Some r | None => p end.

(** A doubly linked segment: the nodes [rs], in order, carry the values
    [vs]; the first points back to [p] and the last forward to [q]. *)
Fixpoint dseg (ns : gmap ref node) (p : option ref) (rs : list ref)
    (vs : list scored) (q : option ref) : Prop :=
  match rs, vs with
  | [], [] => True
  | r :: rs', v :: vs' =>
      ns !! r = Some (L.Node v (hd_or rs' q) p) /\ dseg ns (Some r) rs' vs' q
  | _, _ => False
  end.

(** The list object [l] holds the sequence [vs]. *)
Definition repr (l : L.t) (vs : list scored) : Prop :=
  exists rs, NoDup rs /\ dseg (L.nodes l) None rs vs None /\
    L.head l = head rs /\ L.tail l = last rs /\
    L.length l = Z.of_nat (length vs).

Lemma hd_or_app rs1 rs2 q : hd_or (rs1 ++ rs2) q = hd_or rs1 (hd_or rs2 q).
Proof. destruct rs1; reflexivity. Qed.

Lemma last_or_cons r rs p : last_or (r :: rs) p = last_or rs (Some r).
Proof.
  unfold last_or. destruct rs as [|r' rs]; [reflexivity|].
  rewrite last_cons. destruct (last (r' :: rs)) eqn:E; [reflexivity|].
  apply last_None in E. discriminate.
Qed.

Lemma last_or_snoc rs r p : last_or (rs ++ [r]) p = Some r.
Proof. unfold last_or. rewrite last_snoc. reflexivity. Qed.

Lemma hd_or_head rs : hd_or rs None = head rs.
Proof. destruct rs; reflexivity. Qed.

Lemma dseg_length ns p rs vs q : dseg ns p rs vs q -> length rs = length vs.
Proof.
  revert p vs. induction rs as [|r rs IH]; intros p [|v vs]; simpl; try tauto.
  intros [_ H]. f_equal. eauto.
Qed.

Lemma dseg_ext ns ns' p rs vs q :
  (forall r, r ∈ rs -> ns' !! r = ns !! r) ->
  dseg ns p rs vs q -> dseg ns' p rs vs q.
Proof.
  revert p vs. induction rs as [|r rs IH]; intros p [|v vs] Hag; simpl; try tauto.
  intros [H1 H2]. split.
  - rewrite Hag; [exact H1 | left].
  - apply IH; [|exact H2]. intros r' Hr'. apply Hag. right. exact Hr'.
Qed.

Lemma dseg_app ns p rs1 rs2 vs1 vs2 q :
  length rs1 = length vs1 ->
  dseg ns p (rs1 ++ rs2) (vs1 ++ vs2) q <->
  dseg ns p rs1 vs1 (hd_or rs2 q) /\ dseg ns (last_or rs1 p) rs2 vs2 q.
Proof.
  revert p vs1. induction rs1 as [|r rs1 IH]; intros p [|v vs1] Hlen;
    simpl in Hlen; try discriminate.
  - simpl. unfold last_or. simpl. tauto.
  - simpl. rewrite hd_or_app, last_or_cons.
    rewrite (IH (Some r) vs1) by lia. tauto.
Qed.

Lemma dseg_allocated ns p rs vs q r :
  dseg ns p rs vs q -> r ∈ rs -> is_Some (ns !! r).
Proof.
  revert p vs. induction rs as [|r' rs IH]; intros p [|v vs]; simpl; try tauto.
  - intros _ H. inversion H.
  - intros [H1 H2] Hin. apply elem_of_cons in Hin as [->|Hin]; eauto.
Qed.

Lemma dseg_fresh ns p rs vs q :
  dseg ns p rs vs q -> fresh (dom ns) ∉ rs.
Proof.
  intros H Hin. destruct (dseg_allocated _ _ _ _ _ _ H Hin) as [n Hn].
  apply (is_fresh (dom ns)). apply elem_of_dom. eauto.
Qed.

(** ** [getArray] reads the sequence *)

Lemma getArray_loop_dseg fuel l p rs vs acc :
  dseg (L.nodes l) p rs vs None -> (length rs <= fuel)%nat ->
  L.getArray_loop fuel l (hd_or rs None) acc = Ok (acc ++ vs).
Proof.
  revert fuel p vs acc. induction rs as [|r rs IH]; intros fuel p [|v vs] acc;
    simpl; try tauto.
  - intros _ _. destruct fuel; rewrite app_nil_r; reflexivity.
  - intros [H1 H2] Hf. destruct fuel as [|fuel]; [lia|].
    simpl. rewrite H1. simpl.
    rewrite (IH fuel (Some r) vs) by (auto; lia).
    rewrite <- app_assoc. destruct v; reflexivity.
Qed.

Lemma refs_bounded (ns : gmap ref node) rs :
  NoDup rs -> (forall r, r ∈ rs -> is_Some (ns !! r)) ->
  (length rs <= size ns)%nat.
Proof.
  intros Hnd Hall.
  rewrite <- (size_dom (D := gset nat)).
  rewrite <- (size_list_to_set (C := gset nat) rs Hnd).
  apply subseteq_size. intros r Hr.
  apply elem_of_list_to_set in Hr. apply elem_of_dom. auto.
Qed.

Theorem getArray_repr l vs : repr l vs -> L.getArray l = Ok vs.
Proof.
  intros (rs & Hnd & Hseg & Hh & _ & _). unfold L.getArray.
  rewrite Hh, <- hd_or_head.
  apply (getArray_loop_dseg _ l None rs vs []); [exact Hseg|].
  pose proof (refs_bounded (L.nodes l) rs Hnd
    (fun r => dseg_allocated _ _ _ _ _ r Hseg)). lia.
Qed.

(** ** [_getIndex] finds [index_of] *)

Lemma _getIndex_loop_dseg rounds l a count p rs vs :
  dseg (L.nodes l) p rs vs None ->
  (count + Z.of_nat rounds = L.maxLength l)%Z ->
  (length vs <= rounds)%nat ->
  L._getIndex_loop rounds l a count (hd_or rs None) =
  (count + Z.of_nat (index_of a vs))%Z.
Proof.
  revert count p rs vs. induction rounds as [|rounds IH];
    intros count p rs vs Hseg Hk Hlen.
  - destruct vs; simpl in Hlen; [|lia]. simpl. lia.
  - simpl. destruct (Z.ltb_spec count (L.maxLength l)) as [_|?]; [|lia].
    destruct rs as [|r rs], vs as [|v vs]; simpl in Hseg; try tauto.
    + simpl. lia.
    + destruct Hseg as [H1 H2]. simpl. rewrite H1. simpl.
      destruct (Num.le (alike v) a); [lia|].
      rewrite (IH (count + 1)%Z (Some r) rs vs H2) by (simpl in Hlen; lia).
      lia.
Qed.

Lemma _getIndex_repr l vs a :
  repr l vs -> (Z.of_nat (length vs) <= L.maxLength l)%Z ->
  L._getIndex a l = Z.of_nat (index_of a vs).
Proof.
  intros (rs & _ & Hseg & Hh & _ & _) Hk. unfold L._getIndex.
  rewrite Hh, <- hd_or_head.
  rewrite (_getIndex_loop_dseg _ l a 0%Z None rs vs Hseg) by lia.
  reflexivity.
Qed.

Lemma index_of_le a vs : (index_of a vs <= length vs)%nat.
Proof. induction vs as [|v vs IH]; simpl; [lia|]. destruct (Num.le _ _); lia. Qed.

(** ** [_audit] and [_deleteLastNode] *)

Lemma deref_Some l r n :
  L.nodes l !! r = Some n -> L.deref l (Some r) = Ok (r, n).
Proof. intros H. unfold L.deref. rewrite H. reflexivity. Qed.

Lemma write_next_Some l r n v :
  L.nodes l !! r = Some n ->
  L.write_next (Some r) v l =
  Ok (L.set_nodes (<[r := L.Node (L.obj n) v (L.prev n)]> (L.nodes l)) l).
Proof. intros H. unfold L.write_next. rewrite (deref_Some _ _ _ H). reflexivity. Qed.

Lemma write_prev_Some l r n v :
  L.nodes l !! r = Some n ->
  L.write_prev (Some r) v l =
  Ok (L.set_nodes (<[r := L.Node (L.obj n) (L.next n) v]> (L.nodes l)) l).
Proof. intros H. unfold L.write_prev. rewrite (deref_Some _ _ _ H). reflexivity. Qed.

Lemma list_snoc_inv {A} (xs : list A) :
  (0 < length xs)%nat -> exists xs' x, xs = xs' ++ [x].
Proof.
  destruct xs as [|x xs _] using rev_ind; simpl; [lia|]. eauto.
Qed.

Lemma last_app_cons {A} (xs : list A) y ys :
  last (xs ++ y :: ys) = last (y :: ys).
Proof.
  rewrite last_app. destruct (last (y :: ys)) eqn:E; [reflexivity|].
  apply last_None in E. discriminate.
Qed.

Lemma NoDup_snoc_inv (rs : list ref) r : NoDup (rs ++ [r]) -> NoDup rs /\ r ∉ rs.
Proof.
  intros H. apply NoDup_app in H as (H1 & H2 & _). split; [exact H1|].
  intros Hin. apply (H2 r Hin). left.
Qed.

Lemma _deleteLastNode_repr l vs v w :
  repr l (vs ++ [v; w]) ->
  exists l', L._deleteLastNode l = Ok l' /\ repr l' (vs ++ [v]) /\
    L.maxLength l' = L.maxLength l.
Proof.
  intros (rs & Hnd & Hseg & Hh & Ht & Hlen).
  pose proof (dseg_length _ _ _ _ _ Hseg) as Hl.
  rewrite length_app in Hl. simpl in Hl.
  destruct (list_snoc_inv rs) as [rs1 [b Hrs]]; [lia|]. subst rs.
  rewrite length_app in Hl. simpl in Hl.
  destruct (list_snoc_inv rs1) as [rs0 [a Hrs]]; [lia|]. subst rs1.
  rewrite length_app in Hl. simpl in Hl.
  rewrite <- app_assoc in Hseg, Hnd, Hh, Ht. simpl in Hseg, Hnd, Hh, Ht.
  apply (dseg_app _ _ rs0 [a; b] vs [v; w]) in Hseg as [Hs0 Hs1]; [|lia].
  simpl in Hs1. destruct Hs1 as (Ha & Hb & _).
  rewrite last_app in Ht. simpl in Ht.
  assert (Hab : a <> b).
  { apply NoDup_app in Hnd as (_ & _ & Hnd). inversion Hnd as [|? ? Hn _]; subst.
    intros ->. apply Hn. left. }
  assert (Ha0 : (a ∉ rs0) /\ (b ∉ rs0)).
  { apply NoDup_app in Hnd as (_ & Hd & _). split; intros Hin;
      apply (Hd _ Hin); [left | right; left]. }
  destruct Ha0 as [Ha0 Hb0].
  unfold L._deleteLastNode. rewrite Ht. rewrite (deref_Some _ _ _ Hb). simpl.
  rewrite (write_prev_Some _ _ _ None Hb). simpl.
  erewrite write_next_Some; [|simpl; rewrite lookup_insert_ne by auto; exact Ha].
  simpl. eexists. split; [reflexivity|]. split; [|reflexivity].
  exists (rs0 ++ [a]). simpl. split; [|split; [|split; [|split]]].
  - apply NoDup_app in Hnd as (Hnd & _ & _). apply NoDup_app.
    split; [exact Hnd|]. split; [|apply NoDup_singleton].
    intros x Hx Hin. apply list_elem_of_singleton in Hin as ->. tauto.
  - apply (dseg_app _ _ rs0 [a] vs [v]); [lia|]. split.
    + eapply dseg_ext; [|exact Hs0]. intros r Hr.
      rewrite !lookup_insert_ne by (intros ->; tauto). reflexivity.
    + simpl. split; [|exact I]. rewrite lookup_insert_eq. reflexivity.
  - rewrite Hh. destruct rs0; reflexivity.
  - rewrite last_snoc. reflexivity.
  - rewrite Hlen, !length_app. simpl. lia.
Qed.

Lemma audit_repr l vs :
  repr l vs -> (1 <= L.maxLength l)%Z ->
  exists l', L._audit l = Ok l' /\ repr l' (audit (L.maxLength l) vs) /\
    L.maxLength l' = L.maxLength l.
Proof.
  intros Hr Hk. unfold L._audit, audit.
  assert (Hlen : L.length l = Z.of_nat (length vs)) by (destruct Hr as (? & ? & ? & ? & ? & ?); assumption).
  rewrite Hlen.
  destruct (Z.ltb_spec (L.maxLength l) (Z.of_nat (length vs))) as [Hlt|Hge].
  - destruct (list_snoc_inv vs) as [vs1 [w ->]]; [lia|].
    rewrite length_app in Hlt. simpl in Hlt.
    destruct (list_snoc_inv vs1) as [vs0 [v ->]]; [lia|].
    rewrite removelast_last. rewrite <- app_assoc in Hr. simpl in Hr.
    apply _deleteLastNode_repr with (w := w). exact Hr.
  - eauto.
Qed.

(** ** [_insertAtIndex] *)

Lemma advance_dseg l p rs1 c rs2 vs :
  dseg (L.nodes l) p (rs1 ++ c :: rs2) vs None ->
  L.advance (length rs1) l (hd_or (rs1 ++ c :: rs2) None) = Ok (Some c).
Proof.
  revert p vs. induction rs1 as [|r rs1 IH]; intros p vs Hseg; [reflexivity|].
  destruct vs as [|v vs]; simpl in Hseg; [tauto|]. destruct Hseg as [H1 H2].
  simpl. rewrite H1. simpl. apply (IH _ _ H2).
Qed.

Lemma split_at {A} (xs : list A) i :
  (1 <= i < length xs)%nat ->
  exists xs1 c d xs2, xs = xs1 ++ c :: d :: xs2 /\ length xs1 = (i - 1)%nat.
Proof.
  intros Hi.
  destruct (drop (i - 1) xs) as [|c [|d xs2]] eqn:E.
  - apply (f_equal length) in E. rewrite length_drop in E. simpl in E. lia.
  - apply (f_equal length) in E. rewrite length_drop in E. simpl in E. lia.
  - exists (take (i - 1) xs), c, d, xs2. split.
    + rewrite <- E. symmetry. apply take_drop.
    + rewrite length_take. lia.
Qed.

Ltac lsimpl :=
  cbn [mbind result_bind L.head L.tail L.length L.maxLength L.nodes
       L.set_nodes L.set_head L.set_tail L.set_length
       L.obj L.next L.prev].

Ltac heap_lookup :=
  rewrite ?lookup_insert_eq;
  repeat first
    [ rewrite lookup_insert_eq
    | rewrite lookup_insert_ne by (first [assumption | apply not_eq_sym; assumption]) ].

Lemma insert_front_repr l v vs o :
  repr l (v :: vs) ->
  exists l1, (let '(newNode, l0) := L._node o l in
      l0 ← L.write_next (Some newNode) (L.head l0) l0;
      l0 ← L.write_prev (L.head l0) (Some newNode) l0;
      Ok (L.set_head (Some newNode) l0)) = Ok l1 /\
    repr (L.set_length (L.length l1 + 1) l1) (o :: v :: vs) /\
    L.maxLength l1 = L.maxLength l.
Proof.
  intros (rs & Hnd & Hseg & Hh & Ht & Hlen).
  destruct rs as [|h rs]; simpl in Hseg; [tauto|]. destruct Hseg as [Hn Hseg].
  pose proof (dseg_fresh (L.nodes l) None (h :: rs) (v :: vs) None
    (conj Hn Hseg)) as Hfr.
  set (new := fresh (dom (L.nodes l))) in *.
  assert (Hne : new <> h) by (intros ->; apply Hfr; left).
  apply NoDup_cons in Hnd as [Hh_rs Hnd].
  unfold L._node. fold new. lsimpl.
  erewrite write_next_Some by (lsimpl; apply lookup_insert_eq).
  lsimpl.
  rewrite Hh. cbn [head].
  erewrite write_prev_Some by (lsimpl; heap_lookup; exact Hn).
  lsimpl.
  eexists. split; [reflexivity|]. split; [|reflexivity].
  exists (new :: h :: rs). cbn. split; [|split; [|split; [|split]]].
  - apply NoDup_cons. split; [exact Hfr|]. apply NoDup_cons. auto.
  - split; [heap_lookup; reflexivity|]. split; [heap_lookup; reflexivity|].
    eapply dseg_ext; [|exact Hseg]. intros r Hr.
    assert (r <> h) by (intros ->; tauto).
    assert (r <> new) by (intros ->; apply Hfr; right; exact Hr).
    heap_lookup. reflexivity.
  - reflexivity.
  - rewrite Ht. reflexivity.
  - rewrite Hlen. simpl length. lia.
Qed.

Lemma insert_back_repr l vs w o :
  repr l (vs ++ [w]) ->
  exists l1, (let '(newNode, l0) := L._node o l in
      l0 ← L.write_next (L.tail l0) (Some newNode) l0;
      l0 ← L.write_prev (Some newNode) (L.tail l0) l0;
      Ok (L.set_tail (Some newNode) l0)) = Ok l1 /\
    repr (L.set_length (L.length l1 + 1) l1) (vs ++ [w; o]) /\
    L.maxLength l1 = L.maxLength l.
Proof.
  intros (rs & Hnd & Hseg & Hh & Ht & Hlen).
  pose proof (dseg_fresh _ _ _ _ _ Hseg) as Hfr.
  pose proof (dseg_length _ _ _ _ _ Hseg) as Hl.
  rewrite length_app in Hl. simpl in Hl.
  destruct (list_snoc_inv rs) as [rs0 [t ->]]; [lia|].
  rewrite length_app in Hl. simpl in Hl.
  apply (dseg_app _ _ rs0 [t] vs [w]) in Hseg as [Hs0 Hs1]; [|lia].
  simpl in Hs1. destruct Hs1 as [Hn _].
  set (new := fresh (dom (L.nodes l))) in *.
  assert (Hne : new <> t).
  { intros ->. apply Hfr. apply elem_of_app. right. left. }
  apply NoDup_snoc_inv in Hnd as [Hnd Ht0].
  rewrite last_snoc in Ht.
  unfold L._node. fold new. lsimpl.
  rewrite Ht.
  erewrite write_next_Some by (lsimpl; heap_lookup; exact Hn).
  lsimpl.
  erewrite write_prev_Some by (lsimpl; heap_lookup; reflexivity).
  lsimpl. rewrite ?Ht.
  eexists. split; [reflexivity|]. split; [|reflexivity].
  exists (rs0 ++ [t; new]). cbn. split; [|split; [|split; [|split]]].
  - apply NoDup_app. split; [exact Hnd|]. split.
    + intros x Hx Hin. apply elem_of_cons in Hin as [->|Hin]; [tauto|].
      apply list_elem_of_singleton in Hin as ->.
      apply Hfr. apply elem_of_app. left. exact Hx.
    + apply NoDup_cons. split; [|apply NoDup_singleton].
      intros Hin. apply list_elem_of_singleton in Hin. congruence.
  - apply (dseg_app _ _ rs0 [t; new] vs [w; o]); [lia|]. split.
    + eapply dseg_ext; [|exact Hs0]. intros r Hr.
      assert (r <> t) by (intros ->; tauto).
      assert (r <> new).
      { intros ->. apply Hfr. apply elem_of_app. left. exact Hr. }
      heap_lookup. reflexivity.
    + simpl. split; [heap_lookup; reflexivity|].
      split; [heap_lookup; reflexivity|exact I].
  - rewrite Hh. destruct rs0; reflexivity.
  - change (rs0 ++ [t; new]) with (rs0 ++ [t] ++ [new]).
    rewrite app_assoc, last_snoc. reflexivity.
  - rewrite Hlen, !length_app. simpl. lia.
Qed.
Lemma insert_middle_repr l vs1 vc vd vs2 o :
  repr l (vs1 ++ vc :: vd :: vs2) ->
  exists l1, (let '(newNode, l0) := L._node o l in
      let currentNode := L.head l0 in
      currentNode ← L.advance (length vs1) l0 currentNode;
      '(_, cur) ← L.deref l0 currentNode;
      l0 ← L.write_next (Some newNode) (L.next cur) l0;
      '(_, cur) ← L.deref l0 currentNode;
      l0 ← L.write_prev (L.next cur) (Some newNode) l0;
      l0 ← L.write_prev (Some newNode) currentNode l0;
      L.write_next currentNode (Some newNode) l0) = Ok l1 /\
    repr (L.set_length (L.length l1 + 1) l1) (vs1 ++ vc :: o :: vd :: vs2) /\
    L.maxLength l1 = L.maxLength l.
Proof.
  intros (rs & Hnd & Hseg & Hh & Ht & Hlen).
  pose proof (dseg_fresh _ _ _ _ _ Hseg) as Hfr.
  pose proof (dseg_length _ _ _ _ _ Hseg) as Hl.
  rewrite length_app in Hl. simpl in Hl.
  assert (Hrs : exists rs1 c d rs2,
    rs = rs1 ++ c :: d :: rs2 /\ length rs1 = length vs1).
  { destruct (split_at rs (S (length vs1))) as (rs1 & c & d & rs2 & E & El);
      [lia|]. exists rs1, c, d, rs2. split; [exact E | lia]. }
  destruct Hrs as (rs1 & c & d & rs2 & -> & Hl1).
  set (new := fresh (dom (L.nodes l))) in *.
  set (ns0 := <[new := L.Node o None None]> (L.nodes l)).
  assert (Hseg0 : dseg ns0 None (rs1 ++ c :: d :: rs2)
                    (vs1 ++ vc :: vd :: vs2) None).
  { eapply dseg_ext; [|exact Hseg]. intros r Hr. unfold ns0.
    rewrite lookup_insert_ne by (intros <-; tauto). reflexivity. }
  pose proof Hseg as Hparts.
  apply (dseg_app _ _ rs1 (c :: d :: rs2) vs1 (vc :: vd :: vs2)) in Hparts
    as [Hs1 Hs2]; [|exact Hl1].
  simpl in Hs2. destruct Hs2 as (Hc & Hd & Hs2).
  assert (Hnc : new <> c).
  { intros E. apply Hfr. rewrite E. apply elem_of_app. right. left. }
  assert (Hnd' : new <> d).
  { intros E. apply Hfr. rewrite E. apply elem_of_app. right. right. left. }
  apply NoDup_app in Hnd as (Hnd1 & Hdisj & Hnd2).
  apply NoDup_cons in Hnd2 as [Hc2 Hnd2]. apply NoDup_cons in Hnd2 as [Hd2 Hnd2].
  assert (Hcd : c <> d) by (intros ->; apply Hc2; left).
  unfold L._node. fold new. fold ns0. lsimpl.
  rewrite Hh, <- hd_or_head, <- Hl1.
  rewrite (advance_dseg (L.set_nodes ns0 l) None rs1 c (d :: rs2)
             (vs1 ++ vc :: vd :: vs2)) by exact Hseg0.
  lsimpl.
  assert (Hc0 : ns0 !! c = Some (L.Node vc (Some d) (last_or rs1 None))).
  { unfold ns0. heap_lookup. exact Hc. }
  erewrite deref_Some by (lsimpl; exact Hc0). lsimpl.
  erewrite write_next_Some by (lsimpl; unfold ns0; heap_lookup; reflexivity).
  lsimpl.
  erewrite deref_Some by (lsimpl; heap_lookup; exact Hc0).
  lsimpl.
  erewrite write_prev_Some
    by (lsimpl; unfold ns0; heap_lookup; exact Hd).
  lsimpl.
  erewrite write_prev_Some by (lsimpl; heap_lookup; reflexivity).
  lsimpl.
  erewrite write_next_Some by (lsimpl; heap_lookup; exact Hc0).
  lsimpl.
  eexists. split; [reflexivity|]. split; [|reflexivity].
  exists (rs1 ++ c :: new :: d :: rs2). lsimpl.
  split; [|split; [|split; [|split]]].
  - apply NoDup_app. split; [exact Hnd1|]. split.
    + intros x Hx Hin. apply elem_of_cons in Hin as [->|Hin].
      { apply (Hdisj c Hx). left. }
      apply elem_of_cons in Hin as [->|Hin].
      { apply Hfr. apply elem_of_app. left. exact Hx. }
      apply (Hdisj x Hx). right. exact Hin.
    + apply NoDup_cons. split.
      { intros Hin. apply elem_of_cons in Hin as [E|Hin]; [congruence|].
        apply Hc2. exact Hin. }
      apply NoDup_cons. split.
      { intros Hin. apply Hfr. apply elem_of_app. right. right. exact Hin. }
      apply NoDup_cons. auto.
  - apply (dseg_app _ _ rs1 (c :: new :: d :: rs2) vs1 (vc :: o :: vd :: vs2));
      [exact Hl1|]. split.
    + eapply dseg_ext; [|exact Hs1]. intros r Hr.
      assert (r <> c) by (intros ->; apply (Hdisj c Hr); left).
      assert (r <> d) by (intros ->; apply (Hdisj d Hr); right; left).
      assert (r <> new).
      { intros ->. apply Hfr. apply elem_of_app. left. exact Hr. }
      unfold ns0. heap_lookup. reflexivity.
    + simpl. split; [heap_lookup; reflexivity|].
      split; [heap_lookup; reflexivity|].
      split; [heap_lookup; reflexivity|].
      eapply dseg_ext; [|exact Hs2]. intros r Hr.
      assert (r <> c) by (intros ->; apply Hc2; right; exact Hr).
      assert (r <> d) by (intros ->; tauto).
      assert (r <> new).
      { intros ->. apply Hfr. apply elem_of_app. right. right. right. exact Hr. }
      unfold ns0. heap_lookup. reflexivity.
  - rewrite Hh. destruct rs1; reflexivity.
  - rewrite Ht, !last_app_cons. reflexivity.
  - rewrite Hlen, !length_app. simpl. lia.
Qed.
Lemma repr_length l vs : repr l vs -> L.length l = Z.of_nat (length vs).
Proof. intros (? & ? & ? & ? & ? & ?). assumption. Qed.

Lemma repr_head_nil l : repr l [] -> L.head l = None.
Proof.
  intros (rs & _ & Hseg & Hh & _). apply dseg_length in Hseg.
  destruct rs; [exact Hh | discriminate].
Qed.

Lemma repr_head_cons l v vs : repr l (v :: vs) -> exists r, L.head l = Some r.
Proof.
  intros (rs & _ & Hseg & Hh & _). apply dseg_length in Hseg.
  destruct rs as [|r rs]; [discriminate|]. exists r. exact Hh.
Qed.

Lemma _insertAtIndex_repr l vs i o :
  repr l vs -> vs <> [] -> (i <= length vs)%nat -> (1 <= L.maxLength l)%Z ->
  exists l', L._insertAtIndex (Z.of_nat i) o l = Ok l' /\
    repr l' (audit (L.maxLength l) (insert_at i o vs)) /\
    L.maxLength l' = L.maxLength l.
Proof.
  intros Hr Hne Hi Hk. pose proof (repr_length _ _ Hr) as Hlen.
  assert (Hbr : exists l1,
    (let '(newNode, l0) := L._node o l in
     let currentNode := L.head l0 in
     if (Z.of_nat i =? 0)%Z then
       l0 ← L.write_next (Some newNode) (L.head l0) l0;
       l0 ← L.write_prev (L.head l0) (Some newNode) l0;
       Ok (L.set_head (Some newNode) l0)
     else if (Z.of_nat i =? L.length l0)%Z then
       l0 ← L.write_next (L.tail l0) (Some newNode) l0;
       l0 ← L.write_prev (Some newNode) (L.tail l0) l0;
       Ok (L.set_tail (Some newNode) l0)
     else
       currentNode ← L.advance (Z.to_nat (Z.of_nat i - 1)) l0 currentNode;
       '(_, cur) ← L.deref l0 currentNode;
       l0 ← L.write_next (Some newNode) (L.next cur) l0;
       '(_, cur) ← L.deref l0 currentNode;
       l0 ← L.write_prev (L.next cur) (Some newNode) l0;
       l0 ← L.write_prev (Some newNode) currentNode l0;
       L.write_next currentNode (Some newNode) l0) = Ok l1 /\
    repr (L.set_length (L.length l1 + 1) l1) (insert_at i o vs) /\
    L.maxLength l1 = L.maxLength l).
  { destruct (Z.eqb_spec (Z.of_nat i) 0) as [E0|E0].
    - assert (i = 0)%nat as -> by lia.
      destruct vs as [|v vs]; [congruence|].
      destruct (insert_front_repr l v vs o Hr) as (l1 & E & Hr1 & Hm).
      exists l1. split; [|split; assumption].
      unfold L._node in E |- *. exact E.
    - unfold L._node. cbn [L.length L.set_nodes]. rewrite Hlen.
      destruct (Z.eqb_spec (Z.of_nat i) (Z.of_nat (length vs))) as [E1|E1].
      + assert (i = length vs) as -> by lia.
        destruct (list_snoc_inv vs) as [vs0 [w ->]]; [lia|].
        destruct (insert_back_repr l vs0 w o Hr) as (l1 & E & Hr1 & Hm).
        exists l1. split; [|split; [|exact Hm]].
        * unfold L._node in E. exact E.
        * unfold insert_at. rewrite take_ge, drop_ge by lia.
          rewrite <- app_assoc. exact Hr1.
      + destruct (split_at vs i) as (vs1 & vc & vd & vs2 & -> & Hl1); [lia|].
        destruct (insert_middle_repr l vs1 vc vd vs2 o Hr)
          as (l1 & E & Hr1 & Hm).
        exists l1. split; [|split; [|exact Hm]].
        * unfold L._node in E.
          replace (Z.to_nat (Z.of_nat i - 1)) with (length vs1) by lia.
          exact E.
        * unfold insert_at.
          replace i with (length (vs1 ++ [vc])) by (rewrite length_app; simpl; lia).
          change (vs1 ++ vc :: vd :: vs2) with (vs1 ++ [vc] ++ vd :: vs2).
          rewrite app_assoc, take_app_length, drop_app_length.
          rewrite <- app_assoc. exact Hr1. }
  destruct Hbr as (l1 & E & Hr1 & Hm).
  destruct (audit_repr _ _ Hr1) as (l' & Ea & Hr' & Hm'); [simpl; lia|].
  exists l'. split; [|split].
  - unfold L._insertAtIndex. unfold L._node in E |- *.
    cbv zeta in E |- *. rewrite E. exact Ea.
  - simpl in Hr'. rewrite Hm in Hr'. exact Hr'.
  - simpl in Hm'. lia.
Qed.

Theorem addNode_repr l vs o :
  repr l vs -> (Z.of_nat (length vs) <= L.maxLength l)%Z ->
  (1 <= L.maxLength l)%Z ->
  exists l', L.addNode o l = Ok l' /\
    repr l' (add (L.maxLength l) o vs) /\
    L.maxLength l' = L.maxLength l.
Proof.
  intros Hr Hlen Hk. unfold L.addNode, add. destruct vs as [|v vs].
  - rewrite (repr_head_nil _ Hr).
    destruct Hr as (rs & Hnd & Hseg & Hh & Ht & Hl).
    pose proof (dseg_length _ _ _ _ _ Hseg) as Hrs.
    destruct rs; [|discriminate]. simpl in Hl.
    unfold L._node. lsimpl.
    set (new := fresh (dom (L.nodes l))).
    match goal with |- exists l', L._audit ?l1 = _ /\ _ =>
      destruct (audit_repr l1 [Scored (sentenceTwo o) (alike o)])
        as (l' & Ea & Hr' & Hm') end.
    + exists [new]. lsimpl. split; [apply NoDup_singleton|].
      split; [|split; [reflexivity|split; [reflexivity|]]].
      * simpl. split; [|exact I]. rewrite lookup_insert_eq. destruct o; reflexivity.
      * rewrite Hl. reflexivity.
    + exact Hk.
    + exists l'. split; [exact Ea|]. split; [|exact Hm'].
      destruct o. exact Hr'.
  - destruct (repr_head_cons _ _ _ Hr) as [r ->].
    rewrite (_getIndex_repr l (v :: vs) (alike o) Hr Hlen).
    apply _insertAtIndex_repr; [exact Hr | discriminate | apply index_of_le | exact Hk].
Qed.

Lemma new_repr K : repr (L.new K) [].
Proof.
  exists []. simpl. split; [apply NoDup_nil_2|]. tauto.
Qed.
End ListRepr.

(* ===================================================================== *)
(** * Properties of the ranking sequence *)
(* ===================================================================== *)

Module RankingFacts.
Import Ranking.

(** A candidate whose score is a number. *)
Definition scoreOK (c : scored) : Prop := Num.isNaN (alike c) = false.

(** [a] may stand before [b] in a descending order: [b.alike <= a.alike]. *)
Definition desc (a b : scored) : Prop := Num.le (alike b) (alike a) = true.

(** Candidates with the score [v]. *)
Definition tied (v : float) (c : scored) : bool := Num.eq (alike c) v.

(** Inserting before the first candidate whose score is [<=] the new one,
    as a recursion on the sequence. *)
Fixpoint insert_desc (o : scored) (vs : list scored) : list scored :=
  match vs with
  | [] => [o]
  | v :: vs' =>
      if Num.le (alike v) (alike o) then o :: v :: vs'
      else v :: insert_desc o vs'
  end.

Lemma insert_at_index_of o vs :
  insert_at (index_of (alike o) vs) o vs = insert_desc o vs.
Proof.
  unfold insert_at. induction vs as [|v vs IH]; simpl; [reflexivity|].
  destruct (Num.le (alike v) (alike o)); simpl; [reflexivity|].
  f_equal. exact IH.
Qed.

Lemma insert_desc_length o vs : length (insert_desc o vs) = S (length vs).
Proof.
  induction vs as [|v vs IH]; simpl; [reflexivity|].
  destruct (Num.le _ _); simpl; auto.
Qed.

Lemma insert_desc_perm o vs : Permutation (insert_desc o vs) (o :: vs).
Proof.
  induction vs as [|v vs IH]; simpl; [reflexivity|].
  destruct (Num.le _ _); [reflexivity|].
  rewrite IH. apply perm_swap.
Qed.

Lemma desc_trans a b c : desc a b -> desc b c -> desc a c.
Proof. unfold desc. intros H1 H2. exact (NumFacts.le_trans _ _ _ H2 H1). Qed.

Lemma not_le_desc v o :
  scoreOK v -> scoreOK o -> Num.le (alike v) (alike o) = false -> desc v o.
Proof.
  unfold scoreOK, desc. intros Hv Ho H.
  rewrite (NumFacts.le_lt_total _ _ Hv Ho) in H.
  apply negb_false_iff in H. apply NumFacts.lt_le. exact H.
Qed.

Lemma insert_desc_sorted o vs :
  scoreOK o -> Forall scoreOK vs ->
  StronglySorted desc vs -> StronglySorted desc (insert_desc o vs).
Proof.
  intros Ho Hok Hs. induction vs as [|v vs IH]; simpl.
  - constructor; constructor.
  - apply Forall_cons in Hok as [Hv Hok].
    apply StronglySorted_inv in Hs as [Hs Hall].
    destruct (Num.le (alike v) (alike o)) eqn:E.
    + constructor; [constructor; assumption|].
      constructor; [exact E|].
      eapply Forall_impl; [exact Hall|].
      intros x Hx. eapply desc_trans; [exact E | exact Hx].
    + constructor; [apply IH; assumption|].
      rewrite (Forall_forall). intros x Hx.
      rewrite (insert_desc_perm o vs) in Hx.
      apply elem_of_cons in Hx as [->|Hx].
      * apply not_le_desc; assumption.
      * rewrite Forall_forall in Hall. apply Hall. exact Hx.
Qed.

(** ** Capacity *)

Lemma audit_length K vs :
  length (audit K vs) =
  if (K <? Z.of_nat (length vs))%Z then pred (length vs) else length vs.
Proof.
  unfold audit. destruct (K <? Z.of_nat (length vs))%Z; [|reflexivity].
  destruct vs as [|v vs _] using rev_ind; [reflexivity|].
  rewrite removelast_last, length_app. simpl. lia.
Qed.

Lemma add_length K o vs :
  (Z.of_nat (length vs) <= K)%Z ->
  length (add K o vs) = Nat.min (S (length vs)) (Z.to_nat K).
Proof.
  intros H. unfold add. rewrite audit_length, insert_at_index_of, insert_desc_length.
  destruct (Z.ltb_spec K (Z.of_nat (S (length vs)))); lia.
Qed.

Lemma feed_length K os : forall vs,
  (Z.of_nat (length vs) <= K)%Z ->
  length (feed K os vs) = Nat.min (length os + length vs) (Z.to_nat K).
Proof.
  induction os as [|o os IH]; intros vs H.
  - simpl. lia.
  - change (feed K (o :: os) vs) with (feed K os (add K o vs)).
    cbn [length]. rewrite IH; rewrite add_length by exact H; lia.
Qed.

Lemma audit_take K vs :
  (0 <= K)%Z -> (Z.of_nat (length vs) <= K + 1)%Z ->
  audit K vs = take (Z.to_nat K) vs.
Proof.
  intros HK H. unfold audit.
  destruct (Z.ltb_spec K (Z.of_nat (length vs))).
  - destruct vs as [|v vs _] using rev_ind; [simpl in *; lia|].
    rewrite removelast_last. rewrite length_app in *. simpl in *.
    rewrite take_app_length'; [reflexivity | lia].
  - rewrite take_ge; [reflexivity | lia].
Qed.

(** ** Sortedness and the top-K property *)

(** [vs] is what a list of capacity [K] holds after the candidates [seen]:
    sorted, of the right length, and no worse than anything dropped. *)
Definition top_of (K : Z) (seen vs : list scored) : Prop :=
  StronglySorted desc vs /\
  length vs = Nat.min (length seen) (Z.to_nat K) /\
  exists dropped, Permutation (vs ++ dropped) seen /\
    forall r d, r ∈ vs -> d ∈ dropped -> desc r d.

Lemma StronglySorted_snoc_inv (l : list scored) w r :
  StronglySorted desc (l ++ [w]) -> r ∈ l -> desc r w.
Proof.
  induction l as [|x l IH]; intros Hs Hr; [inversion Hr|].
  simpl in Hs. apply StronglySorted_inv in Hs as [Hs Hall].
  apply elem_of_cons in Hr as [->|Hr]; [|auto].
  rewrite Forall_forall in Hall. apply Hall. apply elem_of_app. right. left.
Qed.

Lemma StronglySorted_removelast (l : list scored) w :
  StronglySorted desc (l ++ [w]) -> StronglySorted desc l.
Proof.
  induction l as [|x l IH]; intros Hs; [constructor|].
  simpl in Hs. apply StronglySorted_inv in Hs as [Hs Hall].
  constructor; [auto|]. rewrite Forall_app in Hall. tauto.
Qed.

Lemma top_of_add K seen vs o :
  (1 <= K)%Z -> Forall scoreOK seen -> scoreOK o ->
  top_of K seen vs -> top_of K (seen ++ [o]) (add K o vs).
Proof.
  intros HK Hseen Ho (Hs & Hlen & dropped & Hperm & Hlow).
  assert (Hvs : Forall scoreOK vs).
  { rewrite Forall_forall in Hseen |- *. intros x Hx. apply Hseen.
    rewrite <- Hperm. apply elem_of_app. left. exact Hx. }
  pose proof (insert_desc_sorted o vs Ho Hvs Hs) as Hs'.
  pose proof (insert_desc_perm o vs) as Hp'.
  pose proof (insert_desc_length o vs) as Hl'.
  assert (Hdl : (length vs + length dropped = length seen)%nat).
  { rewrite <- (Permutation_length Hperm), length_app. reflexivity. }
  unfold add, audit. rewrite insert_at_index_of, Hl'.
  destruct (Z.ltb_spec K (Z.of_nat (S (length vs)))) as [Hfull|Hroom].
  - destruct (insert_desc o vs) as [|x ins _] using rev_ind; [discriminate|].
    rename x into w. rewrite removelast_last.
    rewrite length_app in Hl'. simpl in Hl'.
    split; [eapply StronglySorted_removelast; exact Hs'|].
    split; [rewrite length_app; simpl; lia|].
    exists (w :: dropped). split.
    + rewrite <- Permutation_middle. rewrite (Permutation_app_comm seen [o]).
      simpl. rewrite <- Hperm.
      change (w :: ins ++ dropped) with ((w :: ins) ++ dropped).
      rewrite (Permutation_app_comm ins [w]) in Hp'. simpl in Hp'.
      rewrite Hp'. reflexivity.
    + intros r d Hr Hd. apply elem_of_cons in Hd as [->|Hd].
      { eapply StronglySorted_snoc_inv; eassumption. }
      assert (Hw : w ∈ o :: vs).
      { rewrite <- Hp'. apply elem_of_app. right. left. }
      apply elem_of_cons in Hw as [->|Hw].
      * assert (Hins : Permutation ins vs).
        { rewrite (Permutation_app_comm ins [o]) in Hp'. simpl in Hp'.
          eapply Permutation_cons_inv. exact Hp'. }
        apply Hlow; [|exact Hd]. rewrite <- Hins. exact Hr.
      * eapply desc_trans; [|apply (Hlow w d Hw Hd)].
        eapply StronglySorted_snoc_inv; eassumption.
  - split; [exact Hs'|]. split; [rewrite Hl', length_app; simpl; lia|].
    exists []. assert (dropped = []) as ->.
    { destruct dropped; [reflexivity|]. simpl in Hdl. lia. }
    rewrite app_nil_r in *. split.
    + rewrite Hp', (Permutation_app_comm seen [o]), Hperm. reflexivity.
    + intros r d _ Hd. inversion Hd.
Qed.

Lemma top_of_nil K : top_of K [] [].
Proof.
  split; [constructor|]. split; [reflexivity|].
  exists []. split; [reflexivity|]. intros r d Hr. inversion Hr.
Qed.

Lemma top_of_feed K os : forall seen vs,
  (1 <= K)%Z -> Forall scoreOK seen -> Forall scoreOK os ->
  top_of K seen vs -> top_of K (seen ++ os) (feed K os vs).
Proof.
  induction os as [|o os IH]; intros seen vs HK Hseen Hos Htop; simpl.
  - rewrite app_nil_r. exact Htop.
  - apply Forall_cons in Hos as [Ho Hos].
    change (seen ++ o :: os) with (seen ++ [o] ++ os). rewrite app_assoc.
    apply IH; [exact HK | | exact Hos |].
    + apply Forall_app. split; [exact Hseen|]. constructor; [exact Ho|constructor].
    + apply top_of_add; assumption.
Qed.

(** ** Ties: the later arrival stands first *)

Lemma eq_sym x y : Num.eq x y = Num.eq y x.
Proof. rewrite !NumFacts.eq_le. apply andb_comm. Qed.

Lemma eq_trans x y z :
  Num.eq x y = true -> Num.eq y z = true -> Num.eq x z = true.
Proof.
  rewrite !NumFacts.eq_le, !andb_true_iff. intros [H1 H2] [H3 H4].
  split; eapply NumFacts.le_trans; eassumption.
Qed.

Lemma tied_le v x o :
  tied v x = true -> tied v o = true -> Num.le (alike x) (alike o) = true.
Proof.
  unfold tied. intros Hx Ho. rewrite eq_sym in Ho.
  pose proof (eq_trans _ _ _ Hx Ho) as H. rewrite NumFacts.eq_le in H.
  apply andb_true_iff in H. tauto.
Qed.

Lemma filter_insert_desc v o vs :
  List.filter (tied v) (insert_desc o vs) =
  if tied v o then o :: List.filter (tied v) vs else List.filter (tied v) vs.
Proof.
  induction vs as [|x vs IH]; simpl.
  - destruct (tied v o); reflexivity.
  - destruct (Num.le (alike x) (alike o)) eqn:E; simpl.
    + destruct (tied v o); reflexivity.
    + rewrite IH. destruct (tied v x) eqn:Hx, (tied v o) eqn:Ho; try reflexivity.
      rewrite (tied_le v x o Hx Ho) in E. discriminate.
Qed.

Lemma filter_audit_prefix v K vs :
  List.filter (tied v) (audit K vs) `prefix_of` List.filter (tied v) vs.
Proof.
  unfold audit. destruct (K <? Z.of_nat (length vs))%Z; [|reflexivity].
  destruct vs as [|w vs _] using rev_ind; [reflexivity|].
  rewrite removelast_last, List.filter_app. apply prefix_app_r. reflexivity.
Qed.

Lemma feed_later_first v K os : forall seen vs,
  List.filter (tied v) vs `prefix_of` rev (List.filter (tied v) seen) ->
  List.filter (tied v) (feed K os vs) `prefix_of`
  rev (List.filter (tied v) (seen ++ os)).
Proof.
  induction os as [|o os IH]; intros seen vs H.
  - simpl. rewrite app_nil_r. exact H.
  - change (feed K (o :: os) vs) with (feed K os (add K o vs)).
    change (seen ++ o :: os) with (seen ++ [o] ++ os). rewrite app_assoc.
    apply IH. etransitivity; [apply filter_audit_prefix|].
    rewrite insert_at_index_of, filter_insert_desc, List.filter_app, rev_app_distr.
    simpl. destruct (tied v o); simpl; [apply prefix_cons|]; exact H.
Qed.

(** ** Truncating after every insertion or once at the end *)

Lemma take_insert_desc n o vs :
  take n (insert_desc o (take n vs)) = take n (insert_desc o vs).
Proof.
  revert vs. induction n as [|n IH]; intros vs; [reflexivity|].
  destruct vs as [|v vs]; [reflexivity|]. simpl.
  destruct (Num.le (alike v) (alike o)); simpl.
  - f_equal. destruct n; [reflexivity|]. simpl. f_equal.
    rewrite take_take. f_equal. lia.
  - f_equal. apply IH.
Qed.

Definition insert_all (os vs : list scored) : list scored :=
  fold_left (fun vs o => insert_desc o vs) os vs.

Lemma insert_all_length os : forall vs,
  length (insert_all os vs) = (length os + length vs)%nat.
Proof.
  induction os as [|o os IH]; intros vs; simpl; [reflexivity|].
  rewrite IH, insert_desc_length. lia.
Qed.

Lemma feed_take K os : forall vs ws,
  (0 <= K)%Z -> (Z.of_nat (length vs) <= K)%Z ->
  vs = take (Z.to_nat K) ws ->
  feed K os vs = take (Z.to_nat K) (insert_all os ws).
Proof.
  induction os as [|o os IH]; intros vs ws HK Hlen Hvs; [exact Hvs|].
  change (feed K (o :: os) vs) with (feed K os (add K o vs)).
  change (insert_all (o :: os) ws) with (insert_all os (insert_desc o ws)).
  assert (Hadd : add K o vs = take (Z.to_nat K) (insert_desc o ws)).
  { unfold add. rewrite insert_at_index_of, audit_take.
    - rewrite Hvs. apply take_insert_desc.
    - exact HK.
    - rewrite insert_desc_length. lia. }
  apply IH; [exact HK| |exact Hadd].
  rewrite Hadd, length_take. lia.
Qed.
End RankingFacts.

(* ===================================================================== *)
(** * Properties of the sort by descending score *)
(* ===================================================================== *)

Module SortFacts.
Import JSArray RankingFacts.

(** What the sort reads of [(a, b) => b.alike - a.alike]. *)
Lemma lt0_SortCompare y x :
  Num.lt 0 (SortCompare by_alike_desc y x) = Num.lt (alike y) (alike x).
Proof.
  unfold SortCompare, by_alike_desc.
  rewrite <- (NumFacts.sub_positive (alike x) (alike y)).
  destruct (Num.isNaN (alike x - alike y)) eqn:E; [|reflexivity].
  unfold Num.lt. rewrite !FloatAxioms.ltb_spec.
  apply NumFacts.isNaN_spec in E. rewrite E. reflexivity.
Qed.

Lemma sort_insert_perm x s :
  Permutation (sort_insert by_alike_desc x s) (x :: s).
Proof.
  induction s as [|y ys IH]; simpl; [reflexivity|].
  destruct (Num.lt 0 _); [reflexivity|]. rewrite IH. apply perm_swap.
Qed.

Definition sort_from (acc l : list scored) : list scored :=
  fold_left (fun sorted x => sort_insert by_alike_desc x sorted) l acc.

Lemma sort_from_perm l : forall acc, Permutation (sort_from acc l) (acc ++ l).
Proof.
  induction l as [|x l IH]; intros acc; simpl.
  - rewrite app_nil_r. reflexivity.
  - rewrite IH, sort_insert_perm. apply Permutation_middle.
Qed.

Lemma sort_perm l : Permutation (sort by_alike_desc l) l.
Proof. apply (sort_from_perm l []). Qed.

Lemma sort_insert_sorted x s :
  scoreOK x -> Forall scoreOK s -> StronglySorted desc s ->
  StronglySorted desc (sort_insert by_alike_desc x s).
Proof.
  intros Hx Hok Hs. induction s as [|y ys IH]; simpl.
  - constructor; constructor.
  - apply Forall_cons in Hok as [Hy Hok].
    apply StronglySorted_inv in Hs as [Hs Hall].
    rewrite lt0_SortCompare. destruct (Num.lt (alike y) (alike x)) eqn:E.
    + apply NumFacts.lt_le in E.
      constructor; [constructor; assumption|].
      constructor; [exact E|].
      eapply Forall_impl; [exact Hall|].
      intros z Hz. eapply desc_trans; [exact E | exact Hz].
    + constructor; [apply IH; assumption|].
      rewrite Forall_forall. intros z Hz.
      rewrite (sort_insert_perm x ys) in Hz.
      apply elem_of_cons in Hz as [->|Hz].
      * unfold desc. rewrite (NumFacts.le_lt_total _ _ Hx Hy), E. reflexivity.
      * rewrite Forall_forall in Hall. auto.
Qed.

Lemma sort_from_sorted l : forall acc,
  Forall scoreOK acc -> Forall scoreOK l -> StronglySorted desc acc ->
  StronglySorted desc (sort_from acc l) /\ Forall scoreOK (sort_from acc l).
Proof.
  induction l as [|x l IH]; intros acc Hacc Hl Hs; simpl; [tauto|].
  apply Forall_cons in Hl as [Hx Hl]. apply IH; [|exact Hl|].
  - rewrite Forall_forall. intros z Hz. rewrite (sort_insert_perm x acc) in Hz.
    apply elem_of_cons in Hz as [->|Hz]; [exact Hx|].
    rewrite Forall_forall in Hacc. auto.
  - apply sort_insert_sorted; assumption.
Qed.

Lemma sort_sorted l :
  Forall scoreOK l -> StronglySorted desc (sort by_alike_desc l).
Proof.
  intros H. apply (sort_from_sorted l []); [constructor | exact H | constructor].
Qed.

(** Stability: candidates of one score keep their order. *)

Lemma filter_none {A} (P : A -> bool) (l : list A) :
  (forall z, z ∈ l -> P z = false) -> List.filter P l = [].
Proof.
  induction l as [|x l IH]; intros H; simpl; [reflexivity|].
  rewrite (H x) by left. apply IH. intros z Hz. apply H. right. exact Hz.
Qed.

Lemma tied_not_lt v z x :
  tied v z = true -> tied v x = true -> Num.lt (alike z) (alike x) = false.
Proof.
  intros Hz Hx. destruct (Num.lt (alike z) (alike x)) eqn:E; [|reflexivity].
  apply NumFacts.lt_not_le in E. rewrite (tied_le v x z Hx Hz) in E. discriminate.
Qed.

Lemma sort_insert_filter v x s :
  StronglySorted desc s ->
  List.filter (tied v) (sort_insert by_alike_desc x s) =
  List.filter (tied v) s ++ (if tied v x then [x] else []).
Proof.
  intros Hs. induction s as [|y ys IH]; simpl.
  - destruct (tied v x); reflexivity.
  - apply StronglySorted_inv in Hs as [Hs Hall].
    rewrite lt0_SortCompare. destruct (Num.lt (alike y) (alike x)) eqn:E.
    + cbn [List.filter].
      destruct (tied v x) eqn:Hx; [|rewrite app_nil_r; reflexivity].
      assert (Hnone : forall z, z ∈ y :: ys -> tied v z = false).
      { intros z Hz. destruct (tied v z) eqn:Htz; [|reflexivity].
        apply elem_of_cons in Hz as [->|Hz].
        - rewrite (tied_not_lt v y x Htz Hx) in E. discriminate.
        - pose proof (tied_le v x z Hx Htz) as Hxz.
          rewrite Forall_forall in Hall. pose proof (Hall z Hz) as Hzy.
          pose proof (NumFacts.le_trans _ _ _ Hxz Hzy) as Hxy.
          apply NumFacts.lt_not_le in E. congruence. }
      rewrite (Hnone y) by left.
      rewrite (filter_none (tied v) ys); [reflexivity|].
      intros z Hz. apply Hnone. right. exact Hz.
    + simpl. rewrite (IH Hs). destruct (tied v y); reflexivity.
Qed.

Lemma sort_from_filter v l : forall acc,
  Forall scoreOK acc -> Forall scoreOK l -> StronglySorted desc acc ->
  List.filter (tied v) (sort_from acc l) =
  List.filter (tied v) acc ++ List.filter (tied v) l.
Proof.
  induction l as [|x l IH]; intros acc Hacc Hl Hs; simpl.
  - rewrite app_nil_r. reflexivity.
  - apply Forall_cons in Hl as [Hx Hl]. rewrite IH.
    + rewrite (sort_insert_filter v x acc Hs), <- app_assoc.
      destruct (tied v x); reflexivity.
    + rewrite Forall_forall. intros z Hz. rewrite (sort_insert_perm x acc) in Hz.
      apply elem_of_cons in Hz as [->|Hz]; [exact Hx|].
      rewrite Forall_forall in Hacc. auto.
    + exact Hl.
    + apply sort_insert_sorted; assumption.
Qed.

Lemma sort_stable v l :
  Forall scoreOK l ->
  List.filter (tied v) (sort by_alike_desc l) = List.filter (tied v) l.
Proof.
  intros H. apply (sort_from_filter v l []); [constructor | exact H | constructor].
Qed.

(** ** The sort and the ranking list *)

(** No two different candidates have the same score. *)
Definition no_ties (l : list scored) : Prop :=
  forall x y, x ∈ l -> y ∈ l -> Num.eq (alike x) (alike y) = true -> x = y.

Lemma sort_insert_front x s :
  scoreOK x -> Forall scoreOK s ->
  (forall z, z ∈ s -> desc x z) ->
  (forall z, z ∈ s -> Num.eq (alike z) (alike x) = true -> z = x) ->
  sort_insert by_alike_desc x s = x :: s.
Proof.
  intros Hx Hok Hle Htie. induction s as [|z s IH]; [reflexivity|].
  simpl. rewrite lt0_SortCompare.
  destruct (Num.lt (alike z) (alike x)) eqn:E; [reflexivity|].
  apply Forall_cons in Hok as [Hz Hok].
  assert (z = x) as ->.
  { apply Htie; [left|]. rewrite NumFacts.eq_le, (Hle z) by left.
    rewrite (NumFacts.le_lt_total _ _ Hx Hz), E. reflexivity. }
  f_equal. apply IH; [exact Hok| |].
  - intros w Hw. apply Hle. right. exact Hw.
  - intros w Hw. apply Htie. right. exact Hw.
Qed.

Lemma sort_insert_insert_desc x s :
  scoreOK x -> Forall scoreOK s -> StronglySorted desc s ->
  (forall z, z ∈ s -> Num.eq (alike z) (alike x) = true -> z = x) ->
  sort_insert by_alike_desc x s = insert_desc x s.
Proof.
  intros Hx Hok Hs Htie. induction s as [|y ys IH]; [reflexivity|].
  pose proof Hok as Hok'. apply Forall_cons in Hok' as [Hy Hys].
  pose proof Hs as Hs'. apply StronglySorted_inv in Hs' as [Hsys Hall].
  cbn [insert_desc]. destruct (Num.le (alike y) (alike x)) eqn:E.
  - apply sort_insert_front; [exact Hx | exact Hok | | exact Htie].
    intros z Hz. apply elem_of_cons in Hz as [->|Hz]; [exact E|].
    rewrite Forall_forall in Hall. eapply desc_trans; [exact E|]. auto.
  - simpl. rewrite lt0_SortCompare.
    assert (Hlt : Num.lt (alike y) (alike x) = false).
    { destruct (Num.lt (alike y) (alike x)) eqn:L; [|reflexivity].
      apply NumFacts.lt_le in L. congruence. }
    rewrite Hlt. f_equal. apply IH; [exact Hys | exact Hsys |].
    intros z Hz. apply Htie. right. exact Hz.
Qed.

Lemma insert_all_sort_from l : forall acc,
  Forall scoreOK acc -> Forall scoreOK l -> StronglySorted desc acc ->
  no_ties (acc ++ l) ->
  insert_all l acc = sort_from acc l.
Proof.
  induction l as [|x l IH]; intros acc Hacc Hl Hs Hnt; [reflexivity|].
  apply Forall_cons in Hl as [Hx Hl].
  change (insert_all (x :: l) acc) with (insert_all l (insert_desc x acc)).
  change (sort_from acc (x :: l))
    with (sort_from (sort_insert by_alike_desc x acc) l).
  assert (Heq : sort_insert by_alike_desc x acc = insert_desc x acc).
  { apply sort_insert_insert_desc; [exact Hx | exact Hacc | exact Hs |].
    intros z Hz. apply Hnt; apply elem_of_app; [left; exact Hz | right; left]. }
  rewrite Heq. apply IH; [| exact Hl | |].
  - rewrite Forall_forall. intros z Hz. rewrite (insert_desc_perm x acc) in Hz.
    apply elem_of_cons in Hz as [->|Hz]; [exact Hx|].
    rewrite Forall_forall in Hacc. auto.
  - apply insert_desc_sorted; assumption.
  - intros a b Ha Hb. apply Hnt.
    + rewrite elem_of_app in Ha |- *. rewrite (insert_desc_perm x acc) in Ha.
      destruct Ha as [Ha|Ha]; [|right; right; exact Ha].
      apply elem_of_cons in Ha as [->|Ha]; [right; left | left; exact Ha].
    + rewrite elem_of_app in Hb |- *. rewrite (insert_desc_perm x acc) in Hb.
      destruct Hb as [Hb|Hb]; [|right; right; exact Hb].
      apply elem_of_cons in Hb as [->|Hb]; [right; left | left; exact Hb].
Qed.

(** Without ties, the list of capacity [K] holds the first [K] of the
    sorted array. *)
Theorem feed_sort K os :
  (0 <= K)%Z -> Forall scoreOK os -> no_ties os ->
  Ranking.feed K os [] = take (Z.to_nat K) (sort by_alike_desc os).
Proof.
  intros HK Hok Hnt.
  rewrite (feed_take K os [] []); [|exact HK|simpl; lia|destruct (Z.to_nat K); reflexivity].
  f_equal. apply insert_all_sort_from; [constructor | exact Hok | constructor | exact Hnt].
Qed.
End SortFacts.

(* ===================================================================== *)
(** * Properties of the store version *)
(* ===================================================================== *)

Module StoreFacts.
Import Store.

Section WithModel.
Variable model : option (item -> embedding_t).

(** The loop writes to its own array only. *)
Lemma loop_frame sentence flag rounds : forall i cache a σ tr b,
  b <> a ->
  (loop model sentence flag rounds i cache a σ tr).1.2 !! b = σ !! b.
Proof.
  induction rounds as [|rounds IH]; intros i cache a σ tr b Hb; [reflexivity|].
  cbn [loop]. unfold mbind, SM_bind, candidate at 1.
  destruct (σ !! a) as [cells|] eqn:Ha; [|reflexivity].
  destruct (cells !! i) as [[x|r]|]; try reflexivity.
  unfold run at 1.
  destruct (classify model sentence (text_of x) cache (negb (i =? 0)%nat)
              (prop_embedding x) flag tr) as [[[[s2 al] e1]|e|] tr'];
    try reflexivity.
  unfold assign at 1. rewrite Ha.
  rewrite IH by exact Hb. apply lookup_insert_ne. congruence.
Qed.

(** The loop computes, in place, what [compare_loop] computes. *)
Lemma loop_refines sentence flag : forall todo i cache a σ tr done rs tr',
  σ !! a = Some ((CScored <$> done) ++ (CItem <$> todo)) ->
  length done = i ->
  compare_loop model sentence flag i cache todo tr = (Ok rs, tr') ->
  exists σ',
    loop model sentence flag (length todo) i cache a σ tr = (Ok tt, σ', tr') /\
    σ' !! a = Some (CScored <$> (done ++ rs)).
Proof.
  induction todo as [|x todo IH]; intros i cache a σ tr done rs tr' Ha Hi Hv.
  - simpl in Hv. inversion Hv; subst. exists σ. split; [reflexivity|].
    rewrite Ha. simpl. rewrite !app_nil_r. reflexivity.
  - subst i. cbn [compare_loop] in Hv. cbn [length loop].
    unfold mbind at 1, M_bind in Hv.
    unfold mbind at 1, SM_bind, candidate at 1. rewrite Ha.
    rewrite lookup_app_r by (rewrite length_fmap; lia).
    rewrite length_fmap, Nat.sub_diag. cbn [fmap list_fmap lookup list_lookup].
    unfold mbind at 1, SM_bind, run at 1.
    destruct (classify model sentence (text_of x) cache
                (negb (length done =? 0)%nat)
                (prop_embedding x) flag tr) as [[[[s2 al] e1]|e|] tr1];
      try discriminate.
    unfold mbind at 1, M_bind in Hv.
    destruct (compare_loop model sentence flag (S (length done))
                (if (length done =? 0)%nat then e1 else cache) todo tr1)
      as [[rs1|e|] tr2] eqn:Hrest; try discriminate.
    inversion Hv; subst rs tr'.
    unfold mbind at 1, SM_bind, assign at 1. rewrite Ha.
    edestruct (IH (S (length done)) (if (length done =? 0)%nat then e1 else cache) a
                 (<[a := <[length done := CScored (Scored s2 al)]>
                     ((CScored <$> done) ++ (CItem <$> (x :: todo)))]> σ)
                 tr1 (done ++ [Scored s2 al]) rs1 tr2) as (σ' & Hl & Hσ').
    + rewrite lookup_insert_eq. f_equal.
      rewrite insert_app_r_alt by (rewrite length_fmap; lia).
      rewrite length_fmap, Nat.sub_diag. cbn.
      rewrite fmap_app, <- app_assoc. reflexivity.
    + rewrite length_app. simpl. lia.
    + exact Hrest.
    + exists σ'. split; [exact Hl|]. rewrite Hσ', <- app_assoc. reflexivity.
Qed.

(** The call writes to a copy: the arrays of the store stay as they
    were, and the array returned is a new object. *)
Lemma compareSentenceToArray_frame sentence a flag σ tr res σ1 tr1 :
  compareSentenceToArray model sentence a flag σ tr = (res, σ1, tr1) ->
  σ1 !! a = σ !! a /\
  (forall b, b ∈ dom σ -> σ1 !! b = σ !! b) /\
  match res with
  | Ok (_, r) => r <> a /\ r ∉ dom σ
  | _ => True
  end.
Proof.
  intros E. unfold compareSentenceToArray in E.
  destruct (negb flag && negb (loaded model)).
  { inversion E; subst. auto. }
  unfold mbind, SM_bind, spread at 1 in E.
  destruct (σ !! a) as [cells|] eqn:Ha; [|inversion E; subst; auto].
  set (r := fresh (dom σ)) in E.
  assert (Hr : r ∉ dom σ) by apply is_fresh.
  assert (Hra : r <> a).
  { intros ->. apply Hr. apply elem_of_dom. eauto. }
  unfold len at 1 in E. rewrite lookup_insert_eq in E.
  pose proof (loop_frame sentence flag (length cells) 0 None r
                (<[r:=cells]> σ) tr) as Hf.
  destruct (loop model sentence flag (length cells) 0 None r
              (<[r:=cells]> σ) tr) as [[res' σ'] tr'].
  cbn [fst snd] in Hf.
  assert (Hother : forall b, b ∈ dom σ -> σ' !! b = σ !! b).
  { intros b Hb. rewrite Hf by (intros ->; tauto).
    apply lookup_insert_ne. intros ->. tauto. }
  assert (Hsame : σ' !! a = Some cells).
  { rewrite Hother; [exact Ha|]. apply elem_of_dom. eauto. }
  destruct res' as [[]|e|]; inversion E; subst; auto.
Qed.

End WithModel.
End StoreFacts.

(* ===================================================================== *)
(** * The operations with a loaded model *)
(* ===================================================================== *)

Module FinderFacts.
Import RankingFacts SortFacts ListRepr.

Ltac msimpl :=
  cbv [mbind M_bind mret M_ret emit throw lift embed similarity_of
       modelNotLoadedErrorMessage].

Section Loaded.
Variable f : item -> embedding_t.
Variable sentence : string.

(** The score of one text against [sentence], and the result record. *)
Definition score_of (text : item) : scored :=
  Scored text (calculateCosineSimilarity (f (Str sentence)) (f text)).

Definition scores_of (texts : list item) : list scored := map score_of texts.

(** The events of a sweep over [texts] from index [i]: [sentence] is
    embedded at index 0 only. *)
Fixpoint sweep_events (i : nat) (texts : list item) : list event :=
  match texts with
  | [] => []
  | t :: ts =>
      (if (i =? 0)%nat then [Embedded (Str sentence)] else []) ++
      [Embedded t; Similarity (f (Str sentence)) (Some (f t))] ++
      sweep_events (S i) ts
  end.

Lemma classify_loaded i cache t tr :
  i = 0%nat \/ cache = Some (f (Str sentence)) ->
  classify (Some f) sentence t cache (negb (i =? 0)%nat) None false tr =
  (Ok (t, calculateCosineSimilarity (f (Str sentence)) (f t),
       Some (f (Str sentence))),
   tr ++ (if (i =? 0)%nat then [Embedded (Str sentence)] else []) ++
         [Embedded t; Similarity (f (Str sentence)) (Some (f t))]).
Proof.
  intros H. unfold classify. cbn [negb andb loaded].
  destruct (i =? 0)%nat eqn:E; cbn [negb].
  - msimpl. rewrite <- !app_assoc. reflexivity.
  - destruct H as [->| ->]; [discriminate|]. msimpl.
    rewrite <- !app_assoc. reflexivity.
Qed.

Lemma cache_step i cache :
  i = 0%nat \/ cache = Some (f (Str sentence)) ->
  (if (i =? 0)%nat then Some (f (Str sentence)) else cache) =
  Some (f (Str sentence)).
Proof. intros [->| ->]; [reflexivity|]. destruct (i =? 0)%nat; reflexivity. Qed.

Lemma classify_loaded_entry i cache x tr :
  i = 0%nat \/ cache = Some (f (Str sentence)) ->
  classify (Some f) sentence (text_of x) cache (negb (i =? 0)%nat)
    (prop_embedding x) false tr =
  classify (Some f) sentence (text_of x) cache (negb (i =? 0)%nat)
    None false tr.
Proof. reflexivity. Qed.

Lemma compare_loop_loaded items : forall i cache tr,
  i = 0%nat \/ cache = Some (f (Str sentence)) ->
  compare_loop (Some f) sentence false i cache items tr =
  (Ok (scores_of (text_of <$> items)),
   tr ++ sweep_events i (text_of <$> items)).
Proof.
  induction items as [|x items IH]; intros i cache tr H.
  - simpl. rewrite app_nil_r. reflexivity.
  - cbn [compare_loop]. unfold mbind at 1, M_bind.
    rewrite classify_loaded_entry, classify_loaded by exact H.
    rewrite (cache_step i cache H).
    unfold mbind at 1, M_bind. rewrite IH by (right; reflexivity).
    cbn. rewrite <- !app_assoc. reflexivity.
Qed.

Theorem compareSentenceToArray_loaded items tr :
  compareSentenceToArray (Some f) sentence items false tr =
  (Ok (Compared sentence (scores_of (text_of <$> items))),
   tr ++ sweep_events 0 (text_of <$> items)).
Proof.
  unfold compareSentenceToArray. cbn [negb andb loaded].
  unfold mbind, M_bind. rewrite compare_loop_loaded by (left; reflexivity).
  reflexivity.
Qed.

Theorem arrayInOrder_loaded items tr :
  arrayInOrder (Some f) sentence items tr =
  (Ok (Compared sentence
         (JSArray.sort by_alike_desc (scores_of (text_of <$> items)))),
   tr ++ sweep_events 0 (text_of <$> items)).
Proof.
  unfold arrayInOrder. cbn [negb loaded]. unfold mbind, M_bind.
  rewrite compareSentenceToArray_loaded. reflexivity.
Qed.

(** ** [getTop] *)

Lemma getTop_loop_loaded texts : forall i cache l0 vs tr,
  i = 0%nat \/ cache = Some (f (Str sentence)) ->
  repr l0 vs ->
  (Z.of_nat (length vs) <= L.maxLength l0)%Z ->
  (1 <= L.maxLength l0)%Z ->
  exists l',
    getTop_loop (Some f) sentence i cache l0 texts tr =
      (Ok l', tr ++ sweep_events i texts) /\
    repr l' (Ranking.feed (L.maxLength l0) (scores_of texts) vs) /\
    L.maxLength l' = L.maxLength l0.
Proof.
  induction texts as [|t texts IH]; intros i cache l0 vs tr H Hr Hlen HK.
  - exists l0. simpl. rewrite app_nil_r. auto.
  - cbn [getTop_loop]. unfold mbind at 1, M_bind.
    rewrite classify_loaded by exact H. rewrite (cache_step i cache H).
    destruct (addNode_repr l0 vs (score_of t) Hr Hlen HK) as (l1 & Ea & Hr1 & Hm1).
    unfold mbind at 1, M_bind, lift at 1. fold (score_of t). rewrite Ea.
    destruct (IH (S i) (Some (f (Str sentence))) l1
                (Ranking.add (L.maxLength l0) (score_of t) vs)
                (tr ++ (if (i =? 0)%nat then [Embedded (Str sentence)] else []) ++
                   [Embedded t; Similarity (f (Str sentence)) (Some (f t))]))
      as (l' & El & Hr' & Hm').
    + right. reflexivity.
    + exact Hr1.
    + rewrite Hm1, add_length by exact Hlen. lia.
    + lia.
    + exists l'. split; [|split].
      * rewrite El. cbn [sweep_events]. rewrite <- !app_assoc. reflexivity.
      * rewrite Hm1 in Hr'. exact Hr'.
      * lia.
Qed.

Theorem getTop_loaded texts k tr :
  (0 < k)%Z ->
  getTop (Some f) sentence texts k tr =
  (Ok (Compared sentence
         (Ranking.feed (Z.min k (Z.of_nat (length texts)))
            (scores_of texts) [])),
   tr ++ sweep_events 0 texts).
Proof.
  intros Hk. unfold getTop. cbn [negb loaded].
  destruct (Z.leb_spec k 0) as [?|_]; [lia|].
  destruct texts as [|t texts].
  - cbn. rewrite app_nil_r. reflexivity.
  - set (K := Z.min k (Z.of_nat (length (t :: texts)))).
    assert (HK : (1 <= K)%Z) by (unfold K; cbn [length]; lia).
    destruct (getTop_loop_loaded (t :: texts) 0 None (L.new K) [] tr)
      as (l' & El & Hr' & Hm'); [left; reflexivity | apply new_repr | simpl; lia | exact HK |].
    unfold mbind at 1, M_bind. rewrite El.
    unfold mbind at 1, M_bind, lift. rewrite (getArray_repr _ _ Hr').
    reflexivity.
Qed.

End Loaded.
End FinderFacts.

(* ===================================================================== *)
(** * The claims of the specification *)
(* ===================================================================== *)

Import RankingFacts SortFacts FinderFacts.

(** A call that ends with the error [e] and leaves no event. *)
Definition fails_with {A} (e : error) (m : M A) : Prop :=
  forall tr, m tr = (Throw e, tr).

(** A call that leaves no event: no provider call, no score. *)
Definition silent {A} (m : M A) : Prop :=
  forall tr, (m tr).2 = tr.

(** The list of capacity [K] fed the candidates [os], read back. *)
Definition rank (K : Z) (os : list scored) : result (list scored) :=
  l ← LinkedListInAlikeOrder.addNodes os (LinkedListInAlikeOrder.new K);
  LinkedListInAlikeOrder.getArray l.

(** Among candidates of one score, [res] keeps the arrival order of [os]. *)
Definition earlier_first (os res : list scored) : Prop :=
  forall v, List.filter (tied v) res `sublist_of` List.filter (tied v) os.

(** Among candidates of one score, [res] has the arrivals of [os] latest
    first. *)
Definition later_first (os res : list scored) : Prop :=
  forall v, List.filter (tied v) res `sublist_of` rev (List.filter (tied v) os).

(** ** Shared lemmas *)

Lemma addNodes_repr os : forall l vs,
  ListRepr.repr l vs ->
  (Z.of_nat (length vs) <= LinkedListInAlikeOrder.maxLength l)%Z ->
  (1 <= LinkedListInAlikeOrder.maxLength l)%Z ->
  exists l', LinkedListInAlikeOrder.addNodes os l = Ok l' /\
    ListRepr.repr l' (Ranking.feed (LinkedListInAlikeOrder.maxLength l) os vs) /\
    LinkedListInAlikeOrder.maxLength l' = LinkedListInAlikeOrder.maxLength l.
Proof.
  induction os as [|o os IH]; intros l vs Hr Hlen HK.
  - exists l. simpl. auto.
  - destruct (ListRepr.addNode_repr l vs o Hr Hlen HK) as (l1 & E1 & Hr1 & Hm1).
    destruct (IH l1 (Ranking.add (LinkedListInAlikeOrder.maxLength l) o vs))
      as (l' & E' & Hr' & Hm').
    + exact Hr1.
    + rewrite Hm1, add_length by exact Hlen. lia.
    + lia.
    + exists l'. cbn [LinkedListInAlikeOrder.addNodes].
      unfold mbind, result_bind. rewrite E1, E'. rewrite Hm1 in Hr'.
      split; [reflexivity|]. split; [exact Hr' | lia].
Qed.

(** The list of nodes computes the ranking sequence. *)
Theorem rank_feed K os : (1 <= K)%Z -> rank K os = Ok (Ranking.feed K os []).
Proof.
  intros HK. unfold rank.
  destruct (addNodes_repr os (LinkedListInAlikeOrder.new K) [])
    as (l & E & Hr & _); [apply ListRepr.new_repr | simpl; lia | exact HK |].
  unfold mbind, result_bind. rewrite E. apply ListRepr.getArray_repr. exact Hr.
Qed.

Lemma check_cached_invalid cachedArray x :
  x ∈ cachedArray -> truthy (prop_sentenceTwo x) = false ->
  check_cached cachedArray = Throw InvalidCacheEntry.
Proof.
  induction cachedArray as [|y rest IH]; intros Hin Hx; [inversion Hin|].
  cbn [check_cached].
  destruct (truthy (prop_sentenceTwo y)) eqn:Hy; [|reflexivity].
  cbn [negb]. apply elem_of_cons in Hin as [->|Hin]; [congruence|].
  destruct y as [s|t e]; [discriminate|]. cbn [prop_embedding].
  rewrite (IH Hin Hx). reflexivity.
Qed.

Lemma compareSentenceToArray_unloaded sentence items tr :
  (compareSentenceToArray None sentence items true tr).2 = tr.
Proof.
  unfold compareSentenceToArray. cbn [negb andb].
  destruct items as [|x items]; reflexivity.
Qed.

(** ** C1: calls made while the model is not loaded *)

(** C1, as stated, fails: with [model] null, [cachedCompareSentenceToArray]
    on an empty cached array returns [{ sentenceOne, array: [] }]; the
    guard [!doesCache2Exist && !model] lets the precached call through. *)
Lemma cached_call_without_model_returns :
  cachedCompareSentenceToArray None "q" [] [] = (Ok (Compared "q" []), []) /\
  ~ fails_with ModelNotLoaded (cachedCompareSentenceToArray None "q" []).
Proof.
  split; [reflexivity|]. intros H. specialize (H []). discriminate H.
Qed.

(** C1, amended: while [model] is null, [compareTwoSentences],
    [compareSentenceToArray] without precached candidates, [arrayInOrder],
    [getCached] and [getTop] fail with the ModelNotLoaded error and leave
    no event; the precached calls ([compareSentenceToArray] with
    [doesCache2Exist], [cachedCompareSentenceToArray],
    [cachedArrayInOrder]) skip that check, make no provider call either,
    and return an empty result for an empty array. *)
Theorem unloaded_model_calls (s1 s2 : string) (items : list item)
    (ss : list string) (k : Z) :
  fails_with ModelNotLoaded (compareTwoSentences None s1 s2) /\
  fails_with ModelNotLoaded (compareSentenceToArray None s1 items false) /\
  fails_with ModelNotLoaded (arrayInOrder None s1 items) /\
  fails_with ModelNotLoaded (getCached None ss) /\
  fails_with ModelNotLoaded (getTop None s1 items k) /\
  silent (compareSentenceToArray None s1 items true) /\
  silent (cachedCompareSentenceToArray None s1 items) /\
  silent (cachedArrayInOrder None s1 items) /\
  (forall tr, compareSentenceToArray None s1 [] true tr =
              (Ok (Compared s1 []), tr)) /\
  (forall tr, cachedCompareSentenceToArray None s1 [] tr =
              (Ok (Compared s1 []), tr)) /\
  (forall tr, cachedArrayInOrder None s1 [] tr =
              (Ok (Compared s1 []), tr)).
Proof.
  repeat split; try (intros tr; reflexivity).
  - intros tr. apply compareSentenceToArray_unloaded.
  - intros tr. unfold cachedCompareSentenceToArray, mbind, M_bind, lift.
    destruct (check_cached items); try reflexivity.
    pose proof (compareSentenceToArray_unloaded s1 items tr) as H.
    destruct (compareSentenceToArray None s1 items true tr) as [[r|e|] tr'];
      exact H.
  - intros tr. unfold cachedArrayInOrder, mbind, M_bind, lift.
    destruct (check_cached items); try reflexivity.
    pose proof (compareSentenceToArray_unloaded s1 items tr) as H.
    destruct (compareSentenceToArray None s1 items true tr) as [[r|e|] tr'];
      exact H.
Qed.

(** ** C2: ties in the ranking list *)

Example rank_fed :
  rank 2 Examples.fed =
  Ok [Scored (Str "fourth") 0.9; Scored (Str "second") 0.9]%float.
Proof. vm_compute. reflexivity. Qed.

(** C2, as stated, fails: a list of capacity 2 fed the scores
    [0.3, 0.9, 0.1, 0.9] holds the second 0.9 ahead of the first. *)
Lemma earlier_first_fails :
  exists res, rank 2 Examples.fed = Ok res /\ ~ earlier_first Examples.fed res.
Proof.
  eexists. split; [exact rank_fed|]. intros H.
  specialize (H 0.9%float). vm_compute in H.
  apply sublist_cons_l in H as (k1 & k2 & E & Hs).
  destruct k1 as [|c [|c' k1]]; simpl in E; simplify_eq.
  - apply sublist_nil_r in Hs. discriminate.
  - destruct k1; discriminate.
Qed.

(** C2, amended: among candidates of equal score held by a list of
    capacity [K >= 1], the later-inserted one ranks ahead of the earlier
    one; a list of capacity 2 fed the scores [0.3, 0.9, 0.1, 0.9] yields
    [0.9, 0.9] with the later-arriving 0.9 ahead of the earlier one. *)
Theorem ties_later_first (K : Z) (os : list scored) :
  (1 <= K)%Z ->
  (exists res, rank K os = Ok res /\ later_first os res) /\
  rank 2 Examples.fed =
  Ok [Scored (Str "fourth") 0.9; Scored (Str "second") 0.9]%float.
Proof.
  intros HK. split; [|exact rank_fed].
  exists (Ranking.feed K os []). split; [apply rank_feed, HK|].
  intros v.
  destruct (feed_later_first v K os [] []) as [k Hk]; [reflexivity|].
  simpl in Hk. rewrite Hk. apply sublist_inserts_r. reflexivity.
Qed.

Lemma ties_later_first_witness :
  (exists res, rank 2 Examples.fed = Ok res /\ later_first Examples.fed res) /\
  rank 2 Examples.fed =
  Ok [Scored (Str "fourth") 0.9; Scored (Str "second") 0.9]%float.
Proof. apply ties_later_first. lia. Defined.

(** ** C4: the invariants of the ranking list *)

(** C4, as stated, fails on a score that is NaN: [_getIndex] finds no
    held score [<=] the new one behind a NaN and none [<=] a NaN.  A list
    of capacity 1 fed the scores [NaN, 0.9] keeps the NaN and drops 0.9,
    so it does not hold the top 1; with capacity 2 it holds [NaN, 0.9],
    which is not sorted. *)
Lemma NaN_candidate_breaks_ranking :
  (exists vs, rank 1 NaNExamples.fed = Ok vs /\
     ~ exists dropped, Permutation (vs ++ dropped) NaNExamples.fed /\
         forall r d, r ∈ vs -> d ∈ dropped -> desc r d) /\
  (exists vs, rank 2 NaNExamples.fed = Ok vs /\ ~ StronglySorted desc vs).
Proof.
  split.
  - exists [Scored (Str "first") nan]. split; [vm_compute; reflexivity|].
    intros (dropped & Hp & Hd).
    apply Permutation_cons_inv, Permutation_sym,
      Permutation_length_1_inv in Hp. subst dropped.
    assert (H : desc (Scored (Str "first") nan)
                     (Scored (Str "second") 0.9%float)) by (apply Hd; left).
    discriminate H.
  - exists NaNExamples.fed. split; [vm_compute; reflexivity|].
    intros H. apply StronglySorted_inv in H as [_ H].
    apply Forall_cons in H as [H _]. discriminate H.
Qed.

(** C4, amended: for a list of capacity [K >= 1], after any number [n]
    of the [addNode] calls the list holds [min(n, K)] candidates, at most
    [K]; when the scores of the candidates seen are numbers (not NaN) it
    is moreover sorted non-increasing by score and holds the top [K] of
    those seen: together with the dropped ones they make up the
    candidates seen, and no dropped candidate scores above a held
    one. *)
Theorem ranker_invariants (K : Z) (os : list scored) (n : nat) :
  (1 <= K)%Z ->
  exists vs, rank K (take n os) = Ok vs /\
    (Z.of_nat (length vs) <= K)%Z /\
    length vs = Nat.min (length (take n os)) (Z.to_nat K) /\
    (Forall scoreOK (take n os) ->
     StronglySorted desc vs /\
     exists dropped, Permutation (vs ++ dropped) (take n os) /\
       forall r d, r ∈ vs -> d ∈ dropped -> desc r d).
Proof.
  intros HK. exists (Ranking.feed K (take n os) []).
  split; [apply rank_feed, HK|].
  pose proof (feed_length K (take n os) [] ltac:(simpl; lia)) as Hlen.
  rewrite Nat.add_0_r in Hlen.
  split; [lia|]. split; [exact Hlen|].
  intros Hseen.
  destruct (top_of_feed K (take n os) [] [] HK (Forall_nil_2 _) Hseen (top_of_nil K))
    as (Hs & _ & Hdrop).
  split; [exact Hs | exact Hdrop].
Qed.

Lemma ranker_invariants_witness :
  exists vs, rank 2 (take 3 Examples.fed) = Ok vs /\
    (Z.of_nat (length vs) <= 2)%Z /\
    length vs = Nat.min (length (take 3 Examples.fed)) (Z.to_nat 2) /\
    StronglySorted desc vs /\
    exists dropped, Permutation (vs ++ dropped) (take 3 Examples.fed) /\
      forall r d, r ∈ vs -> d ∈ dropped -> desc r d.
Proof.
  destruct (ranker_invariants 2 Examples.fed 3) as (vs & E & Hle & Hlen & H);
    [lia|].
  destruct H as [Hs Htop]; [repeat constructor|].
  exists vs. repeat split; assumption.
Defined.

(** ** C5: [arrayInOrder] sorts what [compareSentenceToArray] returns *)

(** C5, as stated, fails on a score that is NaN: the comparator
    [b.alike - a.alike] is NaN against it, which the sort takes for a
    tie.  With a provider that embeds a text as the zero vector, the
    scores of [arrayInOrder] come out as [NaN, 1], which is not sorted
    descending. *)
Lemma arrayInOrder_unsorted_on_NaN :
  exists r1 r2 tr',
    arrayInOrder (Some NaNExamples.void_model) "cats" [Str ""; Str "cats"] [] =
      (Ok (Compared "cats" [r1; r2]), tr') /\
    Num.isNaN (alike r1) = true /\ alike r2 = 1%float /\
    ~ StronglySorted desc [r1; r2].
Proof.
  eexists _, _, _. split; [vm_compute; reflexivity|].
  split; [reflexivity|]. split; [reflexivity|].
  intros H. apply StronglySorted_inv in H as [_ H].
  apply Forall_cons in H as [H _]. discriminate H.
Qed.

(** C5, amended: with a loaded model whose scores on the input are
    numbers (not NaN), the array of [arrayInOrder(text, items)] is a
    permutation of that of [compareSentenceToArray(text, items, false)],
    sorted descending by score, with candidates of equal score in their
    original order. *)
Theorem arrayInOrder_sorted_stable (f : item -> embedding_t)
    (sentence : string) (items : list item) (tr : list event) :
  Forall scoreOK (scores_of f sentence (text_of <$> items)) ->
  exists rs rs' tr',
    compareSentenceToArray (Some f) sentence items false tr =
      (Ok (Compared sentence rs), tr') /\
    arrayInOrder (Some f) sentence items tr =
      (Ok (Compared sentence rs'), tr') /\
    Permutation rs' rs /\
    StronglySorted desc rs' /\
    forall v, List.filter (tied v) rs' = List.filter (tied v) rs.
Proof.
  intros Hok. eexists _, _, _.
  split; [apply compareSentenceToArray_loaded|].
  split; [apply arrayInOrder_loaded|].
  split; [apply sort_perm|]. split; [apply sort_sorted, Hok|].
  intros v. apply sort_stable, Hok.
Qed.

Lemma arrayInOrder_sorted_stable_witness :
  exists rs rs' tr',
    compareSentenceToArray (Some Examples.toy_model) "cats"
      [Str "dogs"; Str "cats"; Str "xyz"] false [] =
      (Ok (Compared "cats" rs), tr') /\
    arrayInOrder (Some Examples.toy_model) "cats"
      [Str "dogs"; Str "cats"; Str "xyz"] [] =
      (Ok (Compared "cats" rs'), tr') /\
    Permutation rs' rs /\
    StronglySorted desc rs' /\
    forall v, List.filter (tied v) rs' = List.filter (tied v) rs.
Proof.
  apply arrayInOrder_sorted_stable.
  repeat constructor.
Defined.

(** ** C3: [getTop] against [arrayInOrder] *)

(** C3, as stated, fails: when two candidates score alike, [getTop] ranks
    the later one first and [arrayInOrder] the earlier one. *)
Lemma getTop_differs_on_ties :
  exists top all tr1 tr2,
    getTop (Some Examples.flat_model) "q" [Str "a"; Str "b"] 1 [] =
      (Ok (Compared "q" top), tr1) /\
    arrayInOrder (Some Examples.flat_model) "q" [Str "a"; Str "b"] [] =
      (Ok (Compared "q" all), tr2) /\
    top <> take 1 all.
Proof.
  eexists _, _, _, _. split; [vm_compute; reflexivity|].
  split; [vm_compute; reflexivity|]. discriminate.
Qed.

(** C3, amended: for a loaded model, an array of strings and an integer
    [k > 0], [getTop] returns [min(k, items.length)] results (so exactly
    [items.length] for a larger [k]); when the scores are numbers and no
    two different candidates score alike, they are the first [k] elements
    of the array of [arrayInOrder]. *)
Theorem getTop_prefix_of_arrayInOrder (f : item -> embedding_t)
    (sentence : string) (ss : list string) (k : Z) (tr : list event) :
  (0 < k)%Z ->
  exists top tr',
    getTop (Some f) sentence (Str <$> ss) k tr =
      (Ok (Compared sentence top), tr') /\
    length top = Nat.min (Z.to_nat k) (length ss) /\
    (Forall scoreOK (scores_of f sentence (Str <$> ss)) ->
     no_ties (scores_of f sentence (Str <$> ss)) ->
     exists all,
       arrayInOrder (Some f) sentence (Str <$> ss) tr =
         (Ok (Compared sentence all), tr') /\
       top = take (Z.to_nat k) all).
Proof.
  intros Hk.
  assert (Htext : text_of <$> (Str <$> ss) = Str <$> ss).
  { rewrite <- list_fmap_compose. reflexivity. }
  eexists _, _. split; [apply getTop_loaded, Hk|].
  assert (Hn : length (scores_of f sentence (Str <$> ss)) = length ss).
  { unfold scores_of. rewrite length_map, length_fmap. reflexivity. }
  split.
  - rewrite feed_length by (simpl; lia). rewrite Hn, length_fmap. simpl. lia.
  - intros Hok Hnt. eexists. split.
    + rewrite arrayInOrder_loaded, Htext. reflexivity.
    + rewrite feed_sort by (try assumption; lia).
      rewrite length_fmap.
      replace (Z.to_nat (Z.min k (Z.of_nat (length ss))))
        with (Nat.min (Z.to_nat k) (length ss)) by lia.
      rewrite <- take_take.
      rewrite (take_ge _ (length ss)); [reflexivity|].
      rewrite (Permutation_length (sort_perm _)), Hn. lia.
Qed.

Lemma getTop_prefix_of_arrayInOrder_witness :
  exists top all tr',
    getTop (Some Examples.toy_model) "cats"
      (Str <$> ["dogs"; "cats"; "xyz"]) 2 [] =
      (Ok (Compared "cats" top), tr') /\
    arrayInOrder (Some Examples.toy_model) "cats"
      (Str <$> ["dogs"; "cats"; "xyz"]) [] =
      (Ok (Compared "cats" all), tr') /\
    top = take 2 all.
Proof.
  destruct (getTop_prefix_of_arrayInOrder Examples.toy_model "cats"
              ["dogs"; "cats"; "xyz"] 2 []) as (top & tr' & E & _ & H); [lia|].
  destruct H as (all & Ea & Et).
  - repeat constructor.
  - intros x y Hx Hy He.
    repeat (apply elem_of_cons in Hx as [->|Hx]);
      repeat (apply elem_of_cons in Hy as [->|Hy]);
      try reflexivity; try (vm_compute in He; discriminate He);
      try (inversion Hx); try (inversion Hy).
  - exists top, all, tr'. auto.
Defined.

(** ** C6 and C8: cache entries *)

(** C6, as stated, fails: an entry whose embedding is longer than the
    provider's vectors is scored without any error. *)
Lemma long_embedding_scored :
  length [1; 0]%float <> length (Examples.flat_model (Str "q")) /\
  (cachedCompareSentenceToArray (Some Examples.flat_model) "q"
     [Entry (Some "a") [1; 0]%float] []).1 =
  Ok (Compared "q" [Scored (Str "a") 1%float]).
Proof. split; [discriminate | vm_compute; reflexivity]. Qed.

(** C6, amended: a cache entry whose text is empty or absent makes
    [cachedCompareSentenceToArray] and [cachedArrayInOrder] fail with the
    InvalidCacheEntry error, whatever the state of the model; the length
    of an entry's embedding is not checked. *)
Theorem cached_entry_without_text (model : option (item -> embedding_t))
    (sentence : string) (cachedArray : list item) (x : item) :
  x ∈ cachedArray ->
  truthy (prop_sentenceTwo x) = false ->
  fails_with InvalidCacheEntry
    (cachedCompareSentenceToArray model sentence cachedArray) /\
  fails_with InvalidCacheEntry
    (cachedArrayInOrder model sentence cachedArray).
Proof.
  intros Hin Hx. pose proof (check_cached_invalid _ _ Hin Hx) as E.
  split; intros tr.
  - unfold cachedCompareSentenceToArray, mbind, M_bind, lift. rewrite E.
    reflexivity.
  - unfold cachedArrayInOrder, mbind, M_bind, lift. rewrite E. reflexivity.
Qed.

Lemma cached_entry_without_text_witness :
  fails_with InvalidCacheEntry
    (cachedCompareSentenceToArray (Some Examples.flat_model) "q"
       [Entry (Some "a") [1%float]; Entry (Some "") [1%float]]) /\
  fails_with InvalidCacheEntry
    (cachedArrayInOrder (Some Examples.flat_model) "q"
       [Entry (Some "a") [1%float]; Entry (Some "") [1%float]]).
Proof.
  apply (cached_entry_without_text _ _ _ (Entry (Some "") [1%float])).
  - right. left.
  - reflexivity.
Defined.

(** C8: a cached array with an entry whose [sentenceTwo] is missing makes
    [cachedCompareSentenceToArray] fail with the InvalidCacheEntry error
    before any score is computed: the call leaves no event. *)
Theorem missing_text_fails_before_scoring
    (model : option (item -> embedding_t)) (sentence : string)
    (cachedArray : list item) (x : item) (tr : list event) :
  x ∈ cachedArray ->
  prop_sentenceTwo x = None ->
  cachedCompareSentenceToArray model sentence cachedArray tr =
  (Throw InvalidCacheEntry, tr).
Proof.
  intros Hin Hx.
  unfold cachedCompareSentenceToArray, mbind, M_bind, lift.
  rewrite (check_cached_invalid cachedArray x Hin); [reflexivity|].
  rewrite Hx. reflexivity.
Qed.

Lemma missing_text_fails_before_scoring_witness :
  cachedCompareSentenceToArray (Some Examples.flat_model) "q"
    [Entry (Some "a") [1%float]; Entry None [1%float]] [] =
  (Throw InvalidCacheEntry, []).
Proof.
  apply (missing_text_fails_before_scoring _ _ _ (Entry None [1%float])).
  - right. left.
  - reflexivity.
Defined.

(** ** C7: the caller's array *)

(** C7: whatever the model, the flag and the outcome,
    [compareSentenceToArray] leaves the caller's array, and every array of
    the store, as it was; the array it returns is a new object. *)
Theorem caller_array_untouched (model : option (item -> embedding_t))
    (sentence : string) (a : Store.ref) (doesCache2Exist : bool)
    (σ : gmap Store.ref (list Store.cell)) (tr : list event) :
  let out := Store.compareSentenceToArray model sentence a doesCache2Exist σ tr in
  out.1.2 !! a = σ !! a /\
  (forall b, b ∈ dom σ -> out.1.2 !! b = σ !! b) /\
  match out.1.1 with
  | Ok (_, r) => r <> a /\ r ∉ dom σ
  | _ => True
  end.
Proof.
  cbv zeta.
  destruct (Store.compareSentenceToArray model sentence a doesCache2Exist σ tr)
    as [[res σ1] tr1] eqn:E.
  cbn [fst snd]. exact (StoreFacts.compareSentenceToArray_frame _ _ _ _ _ _ _ _ _ E).
Qed.

(** X20: the store version returns, in a new array, the results of
    [compareSentenceToArray] on the elements of the caller's array. *)
Theorem store_compareSentenceToArray_refines
    (model : option (item -> embedding_t)) (sentence : string)
    (a : Store.ref) (flag : bool) (σ : gmap Store.ref (list Store.cell))
    (tr tr' : list event) (items : list item) (rs : list scored) :
  σ !! a = Some (Store.CItem <$> items) ->
  compareSentenceToArray model sentence items flag tr =
    (Ok (Compared sentence rs), tr') ->
  exists σ' r,
    Store.compareSentenceToArray model sentence a flag σ tr =
      (Ok (sentence, r), σ', tr') /\
    σ' !! r = Some (Store.CScored <$> rs) /\
    σ' !! a = Some (Store.CItem <$> items).
Proof.
  intros Ha Hv.
  assert (Hsame : (Store.compareSentenceToArray model sentence a flag σ tr).1.2
                    !! a = σ !! a).
  { destruct (Store.compareSentenceToArray model sentence a flag σ tr)
      as [[res σ1] tr1] eqn:E.
    exact (proj1 (StoreFacts.compareSentenceToArray_frame _ _ _ _ _ _ _ _ _ E)). }
  rewrite Ha in Hsame.
  unfold compareSentenceToArray in Hv.
  unfold Store.compareSentenceToArray in Hsame |- *.
  destruct (negb flag && negb (loaded model)); [discriminate|].
  unfold mbind, M_bind in Hv.
  destruct (compare_loop model sentence flag 0 None items tr)
    as [[rs0|e|] tr0] eqn:Hl; try discriminate.
  inversion Hv; subst rs0 tr0.
  unfold mbind, Store.SM_bind, Store.spread in Hsame |- *.
  rewrite Ha in Hsame |- *.
  unfold Store.len in Hsame |- *. rewrite lookup_insert_eq in Hsame |- *.
  rewrite length_fmap in Hsame |- *.
  destruct (StoreFacts.loop_refines model sentence flag items 0 None
              (fresh (dom σ)) (<[fresh (dom σ) := Store.CItem <$> items]> σ)
              tr [] rs tr') as (σ' & El & Hσ').
  - rewrite lookup_insert_eq. reflexivity.
  - reflexivity.
  - exact Hl.
  - rewrite El in Hsame |- *. cbn [fst snd] in Hsame.
    exists σ', (fresh (dom σ)). repeat split; [exact Hσ' | exact Hsame].
Qed.

(** ** C9: the score is symmetric *)

Definition swap3 (acc : float * float * float) : float * float * float :=
  let '(d, m1, m2) := acc in (d, m2, m1).

Lemma cosine_step_swap a b acc i :
  cosine_step b a (swap3 acc) i = swap3 (cosine_step a b acc i).
Proof.
  destruct acc as [[d m1] m2]. simpl.
  rewrite (NumFacts.mul_comm (nth i b nan) (nth i a nan)). reflexivity.
Qed.

Lemma cosine_fold_swap a b l : forall acc,
  fold_left (cosine_step b a) l (swap3 acc) =
  swap3 (fold_left (cosine_step a b) l acc).
Proof.
  induction l as [|i l IH]; intros acc; [reflexivity|].
  simpl. rewrite cosine_step_swap. apply IH.
Qed.

Lemma cosine_sums_swap (a b : embedding_t) :
  length a = length b -> cosine_sums b a = swap3 (cosine_sums a b).
Proof.
  intros Hlen. unfold cosine_sums. rewrite <- Hlen.
  change (0%float, 0%float, 0%float) with (swap3 (0%float, 0%float, 0%float)) at 1.
  apply cosine_fold_swap.
Qed.

(** C9: for embeddings of equal length, [score(a, b)] and [score(b, a)]
    are the same number. *)
Theorem cosine_symmetric (a b : embedding_t) :
  length a = length b ->
  calculateCosineSimilarity a b = calculateCosineSimilarity b a.
Proof.
  intros Hlen. unfold calculateCosineSimilarity.
  rewrite (cosine_sums_swap a b Hlen).
  destruct (cosine_sums a b) as [[d m1] m2].
  simpl. rewrite (NumFacts.mul_comm (sqrt m1) (sqrt m2)). reflexivity.
Qed.

Lemma cosine_symmetric_witness :
  calculateCosineSimilarity [1; 2]%float [3; 1]%float =
  calculateCosineSimilarity [3; 1]%float [1; 2]%float.
Proof. apply cosine_symmetric. reflexivity. Defined.

(** Under the comparison [==] of numbers the two scores are equal except
    when the score is NaN, which [==] tells apart from itself. *)
Lemma cosine_eq_unless_NaN (a b : embedding_t) :
  length a = length b ->
  Num.eq (calculateCosineSimilarity a b) (calculateCosineSimilarity b a) =
  negb (Num.isNaN (calculateCosineSimilarity a b)).
Proof.
  intros Hlen. unfold calculateCosineSimilarity.
  rewrite (cosine_sums_swap a b Hlen).
  destruct (cosine_sums a b) as [[d m1] m2].
  simpl. rewrite (NumFacts.mul_comm (sqrt m2) (sqrt m1)).
  unfold Num.isNaN, is_nan, Num.eq. rewrite negb_involutive. reflexivity.
Qed.

(** ** C10: [getTop] on an empty array *)

(** C10: with a loaded model and [k >= 1], [getTop(sentence, [], k)]
    returns [{ sentenceOne: sentence, array: [] }] and leaves no event. *)
Theorem getTop_empty (f : item -> embedding_t) (sentence : string) (k : Z)
    (tr : list event) :
  (1 <= k)%Z ->
  getTop (Some f) sentence [] k tr = (Ok (Compared sentence []), tr).
Proof.
  intros Hk. unfold getTop. cbn [negb loaded].
  destruct (Z.leb_spec k 0) as [?|_]; [lia|]. reflexivity.
Qed.

Lemma getTop_empty_witness :
  getTop (Some Examples.toy_model) "cats" [] 3 [] =
  (Ok (Compared "cats" []), []).
Proof. apply getTop_empty. lia. Defined.

(* ===================================================================== *)
(** * Further properties of the code *)
(* ===================================================================== *)

(** What follows is read off the source alone: the edge cases of the
    scorer, the nodes of the ranking list, the provider calls of the
    sweeps, the cache, and the loading of the model. *)

(** ** The scorer on embeddings of different lengths *)

Module ScorerFacts.

(** ** NaN spreads through the arithmetic of the scorer *)

Lemma Prim2SF_nan : Prim2SF nan = SpecFloat.S754_nan.
Proof. reflexivity. Qed.

Lemma add_nan_r x : (x + nan)%float = nan.
Proof.
  apply Prim2SF_inj. rewrite add_spec, Prim2SF_nan.
  destruct (Prim2SF x) as [| | |[] ? ?]; reflexivity.
Qed.

Lemma add_nan_l x : (nan + x)%float = nan.
Proof.
  apply Prim2SF_inj. rewrite add_spec, Prim2SF_nan. reflexivity.
Qed.

Lemma mul_nan_r x : (x * nan)%float = nan.
Proof.
  apply Prim2SF_inj. rewrite mul_spec, Prim2SF_nan.
  destruct (Prim2SF x) as [| | |[] ? ?]; reflexivity.
Qed.

Lemma div_nan_l x : (nan / x)%float = nan.
Proof.
  apply Prim2SF_inj. rewrite div_spec, Prim2SF_nan. reflexivity.
Qed.

(** The running dot product. *)
Definition dot (acc : float * float * float) : float := acc.1.1.

Lemma cosine_step_nan a b acc i :
  dot acc = nan -> dot (cosine_step a b acc i) = nan.
Proof.
  destruct acc as [[d m1] m2]. cbn. intros ->. apply add_nan_l.
Qed.

Lemma cosine_fold_nan a b l : forall acc,
  dot acc = nan -> dot (fold_left (cosine_step a b) l acc) = nan.
Proof.
  induction l as [|i l IH]; intros acc H; [exact H|].
  cbn [fold_left]. apply IH, cosine_step_nan, H.
Qed.

Lemma cosine_step_beyond a b acc i :
  (length b <= i)%nat -> dot (cosine_step a b acc i) = nan.
Proof.
  intros H. destruct acc as [[d m1] m2]. cbn.
  rewrite (nth_overflow b nan H), mul_nan_r. apply add_nan_r.
Qed.

Lemma cosine_sums_short a b :
  (length b < length a)%nat -> dot (cosine_sums a b) = nan.
Proof.
  intros H. unfold cosine_sums.
  replace (length a) with (length b + S (length a - S (length b)))%nat by lia.
  rewrite seq_app, fold_left_app. cbn [seq fold_left].
  apply cosine_fold_nan, cosine_step_beyond. lia.
Qed.

Lemma calculateCosineSimilarity_short a b :
  (length b < length a)%nat -> calculateCosineSimilarity a b = nan.
Proof.
  intros H. unfold calculateCosineSimilarity.
  pose proof (cosine_sums_short a b H) as Hd.
  destruct (cosine_sums a b) as [[d m1] m2]. cbn in Hd. subst d.
  apply div_nan_l.
Qed.

(** ** Components of [embedding2] beyond [embedding1] are not read *)

Lemma cosine_step_take a b acc i :
  (i < length a)%nat ->
  cosine_step a (take (length a) b) acc i = cosine_step a b acc i.
Proof.
  intros H. destruct acc as [[d m1] m2]. unfold cosine_step.
  rewrite nth_firstn. apply Nat.ltb_lt in H. rewrite H. reflexivity.
Qed.

Lemma cosine_fold_take a b l : forall acc,
  Forall (fun i => (i < length a)%nat) l ->
  fold_left (cosine_step a (take (length a) b)) l acc =
  fold_left (cosine_step a b) l acc.
Proof.
  induction l as [|i l IH]; intros acc H; [reflexivity|].
  apply Forall_cons in H as [Hi H]. cbn [fold_left].
  rewrite cosine_step_take by exact Hi. apply IH, H.
Qed.

Lemma calculateCosineSimilarity_swap (a b : embedding_t) :
  length a = length b ->
  calculateCosineSimilarity a b = calculateCosineSimilarity b a.
Proof.
  intros Hlen. unfold calculateCosineSimilarity.
  rewrite (cosine_sums_swap a b Hlen).
  destruct (cosine_sums a b) as [[d m1] m2].
  simpl. rewrite (NumFacts.mul_comm (sqrt m1) (sqrt m2)). reflexivity.
Qed.

End ScorerFacts.

(** X1: when [embedding2] is shorter than [embedding1], the loop of
    [calculateCosineSimilarity] reads [undefined] from it and the score
    is NaN. *)
Theorem short_second_embedding_scores_NaN (embedding1 embedding2 : embedding_t) :
  (length embedding2 < length embedding1)%nat ->
  Num.isNaN (calculateCosineSimilarity embedding1 embedding2) = true.
Proof.
  intros H. rewrite ScorerFacts.calculateCosineSimilarity_short by exact H.
  reflexivity.
Qed.

Lemma short_second_embedding_scores_NaN_witness :
  Num.isNaN (calculateCosineSimilarity [1; 2; 3]%float [1; 2]%float) = true.
Proof. apply short_second_embedding_scores_NaN. simpl. lia. Defined.

(** X2: the components of [embedding2] beyond the length of
    [embedding1] are never read: the score is that of [embedding2] cut to
    the length of [embedding1]. *)
Theorem long_second_embedding_truncated (embedding1 embedding2 : embedding_t) :
  calculateCosineSimilarity embedding1 embedding2 =
  calculateCosineSimilarity embedding1 (take (length embedding1) embedding2).
Proof.
  unfold calculateCosineSimilarity, cosine_sums.
  rewrite ScorerFacts.cosine_fold_take; [reflexivity|].
  apply Forall_forall. intros i Hi. apply elem_of_seq in Hi. lia.
Qed.

(** ** The nodes of the ranking list *)

Module NodeFacts.
Import Ranking.

(** [index_of] is the first position whose score is [<=] the new one. *)
Lemma index_of_before a vs : forall j v,
  (j < index_of a vs)%nat -> vs !! j = Some v -> Num.le (alike v) a = false.
Proof.
  induction vs as [|w vs IH]; intros j v Hj Hv; [inversion Hv|].
  cbn [index_of] in Hj. destruct (Num.le (alike w) a) eqn:E; [lia|].
  destruct j as [|j]; [injection Hv as <-; exact E|].
  apply (IH j v); [lia | exact Hv].
Qed.

Lemma index_of_at a vs :
  (index_of a vs < length vs)%nat ->
  exists v, vs !! index_of a vs = Some v /\ Num.le (alike v) a = true.
Proof.
  induction vs as [|w vs IH]; cbn [index_of length]; [lia|].
  destruct (Num.le (alike w) a) eqn:E; intros H.
  - exists w. split; [reflexivity | exact E].
  - apply IH. lia.
Qed.

(** The list after [addNodes] from [new K], with what it holds. *)
Lemma addNodes_new K os l :
  (1 <= K)%Z ->
  LinkedListInAlikeOrder.addNodes os (LinkedListInAlikeOrder.new K) = Ok l ->
  ListRepr.repr l (feed K os []) /\ LinkedListInAlikeOrder.maxLength l = K.
Proof.
  intros HK E.
  destruct (addNodes_repr os (LinkedListInAlikeOrder.new K) [])
    as (l' & E' & Hr & Hm); [apply ListRepr.new_repr | simpl; lia | exact HK |].
  rewrite E in E'. injection E' as <-. split; [exact Hr | exact Hm].
Qed.

End NodeFacts.

Module CapacityFacts.
Import Ranking.

Lemma insert_desc_last o vs :
  Forall (fun v => Num.le (alike v) (alike o) = false) vs ->
  insert_desc o vs = vs ++ [o].
Proof.
  induction 1 as [|v vs Hv _ IH]; [reflexivity|].
  cbn [insert_desc]. rewrite Hv, IH. reflexivity.
Qed.

Lemma snoc_of_cons {A} (x : A) (l : list A) :
  exists init w, x :: l = init ++ [w] /\ last (x :: l) = Some w.
Proof.
  destruct (proj2 (last_is_Some (x :: l))) as [w Hw]; [discriminate|].
  destruct (proj1 (last_Some _ _) Hw) as [init E].
  exists init, w. split; [exact E | exact Hw].
Qed.

Lemma insert_desc_inner o vs :
  Exists (fun v => Num.le (alike v) (alike o) = true) vs ->
  exists rs w, insert_desc o vs = rs ++ [w] /\ last vs = Some w /\ o ∈ rs.
Proof.
  induction vs as [|v vs IH]; intros H; [inversion H|].
  cbn [insert_desc]. destruct (Num.le (alike v) (alike o)) eqn:E.
  - destruct (snoc_of_cons v vs) as (init & w & E1 & E2).
    exists (o :: init), w. split; [rewrite E1; reflexivity|].
    split; [exact E2 | left].
  - apply Exists_cons in H as [H|H]; [congruence|].
    destruct (IH H) as (rs & w & E1 & E2 & Hin).
    exists (v :: rs), w. rewrite E1. split; [reflexivity|].
    split; [|right; exact Hin].
    rewrite last_cons, E2. reflexivity.
Qed.

Lemma add_full K o vs :
  Z.of_nat (length vs) = K ->
  add K o vs = removelast (insert_desc o vs).
Proof.
  intros HK. unfold add, audit. rewrite insert_at_index_of, insert_desc_length.
  destruct (Z.ltb_spec K (Z.of_nat (S (length vs)))); [reflexivity|lia].
Qed.

Lemma rank_snoc K os o :
  (1 <= K)%Z ->
  rank K (os ++ [o]) = Ok (add K o (feed K os [])).
Proof.
  intros HK. rewrite rank_feed by exact HK. unfold feed.
  rewrite fold_left_app. reflexivity.
Qed.

Lemma rank_held K os vs :
  (1 <= K)%Z -> rank K os = Ok vs -> vs = feed K os [].
Proof. intros HK. rewrite rank_feed by exact HK. congruence. Qed.

End CapacityFacts.

(** X3: a list made with capacity [K <= 0] fails on its first
    [addNode] with a TypeError: [_audit] finds the only node over
    capacity, and [_deleteLastNode] writes [next] through the [null] that
    is its [prev]. *)
Theorem addNode_without_capacity (K : Z) (o : scored) :
  (K <= 0)%Z ->
  LinkedListInAlikeOrder.addNode o (LinkedListInAlikeOrder.new K) =
  Throw TypeError.
Proof.
  intros HK. unfold LinkedListInAlikeOrder.addNode, LinkedListInAlikeOrder.new.
  cbn [LinkedListInAlikeOrder.head LinkedListInAlikeOrder._node
       LinkedListInAlikeOrder.nodes].
  unfold LinkedListInAlikeOrder._audit.
  cbn [LinkedListInAlikeOrder.set_length LinkedListInAlikeOrder.set_head
       LinkedListInAlikeOrder.set_tail LinkedListInAlikeOrder.set_nodes
       LinkedListInAlikeOrder.maxLength LinkedListInAlikeOrder.length
       LinkedListInAlikeOrder.head LinkedListInAlikeOrder.tail
       LinkedListInAlikeOrder.nodes].
  destruct (Z.ltb_spec K (0 + 1)) as [_|?]; [|lia].
  vm_compute. reflexivity.
Qed.

Lemma addNode_without_capacity_witness :
  LinkedListInAlikeOrder.addNode (Scored (Str "first") 0.5%float)
    (LinkedListInAlikeOrder.new 0) = Throw TypeError.
Proof. apply addNode_without_capacity. lia. Defined.

(** X4: a list made with capacity [K >= 1] takes any sequence of
    [addNode] calls without an error and stays a well-formed doubly linked
    chain from [head] to [tail] ([repr]): [getArray] ends and returns the
    held candidates, and [length] is their number, at most [K]. *)
Theorem list_stays_well_formed (K : Z) (os : list scored) :
  (1 <= K)%Z ->
  exists l vs,
    LinkedListInAlikeOrder.addNodes os (LinkedListInAlikeOrder.new K) = Ok l /\
    ListRepr.repr l vs /\
    LinkedListInAlikeOrder.getArray l = Ok vs /\
    LinkedListInAlikeOrder.length l = Z.of_nat (length vs) /\
    (LinkedListInAlikeOrder.length l <= K)%Z /\
    LinkedListInAlikeOrder.maxLength l = K.
Proof.
  intros HK.
  destruct (addNodes_repr os (LinkedListInAlikeOrder.new K) [])
    as (l & E & Hr & Hm); [apply ListRepr.new_repr | simpl; lia | exact HK |].
  cbn [LinkedListInAlikeOrder.maxLength LinkedListInAlikeOrder.new] in Hr, Hm.
  exists l, (Ranking.feed K os []).
  pose proof (ListRepr.repr_length _ _ Hr) as Hlen.
  pose proof (feed_length K os [] ltac:(simpl; lia)) as Hcap.
  repeat split; try assumption.
  - apply ListRepr.getArray_repr, Hr.
  - lia.
Qed.

Lemma list_stays_well_formed_witness :
  exists l vs,
    LinkedListInAlikeOrder.addNodes Examples.fed (LinkedListInAlikeOrder.new 2)
      = Ok l /\
    ListRepr.repr l vs /\
    LinkedListInAlikeOrder.getArray l = Ok vs /\
    LinkedListInAlikeOrder.length l = Z.of_nat (length vs) /\
    (LinkedListInAlikeOrder.length l <= 2)%Z /\
    LinkedListInAlikeOrder.maxLength l = 2%Z.
Proof. apply list_stays_well_formed. lia. Defined.

(** X5: on a list built by [addNode], [_getIndex(alike)] is the first
    position, from the head, of a held candidate whose score is [<=]
    [alike], and the number of held candidates when there is none. *)
Theorem _getIndex_first_not_above (K : Z) (os : list scored)
    (l : LinkedListInAlikeOrder.t) (vs : list scored) (a : float) :
  (1 <= K)%Z ->
  LinkedListInAlikeOrder.addNodes os (LinkedListInAlikeOrder.new K) = Ok l ->
  LinkedListInAlikeOrder.getArray l = Ok vs ->
  exists i : nat,
    LinkedListInAlikeOrder._getIndex a l = Z.of_nat i /\
    (i <= length vs)%nat /\
    (forall j v, (j < i)%nat -> vs !! j = Some v ->
       Num.le (alike v) a = false) /\
    ((i < length vs)%nat ->
       exists v, vs !! i = Some v /\ Num.le (alike v) a = true).
Proof.
  intros HK E Hg.
  destruct (NodeFacts.addNodes_new K os l HK E) as [Hr Hm].
  rewrite (ListRepr.getArray_repr _ _ Hr) in Hg. injection Hg as <-.
  exists (Ranking.index_of a (Ranking.feed K os [])).
  split; [|split; [apply ListRepr.index_of_le|split]].
  - apply ListRepr._getIndex_repr; [exact Hr|].
    rewrite Hm, (feed_length K os []) by (simpl; lia). lia.
  - apply NodeFacts.index_of_before.
  - apply NodeFacts.index_of_at.
Qed.

Lemma _getIndex_first_not_above_witness :
  exists i : nat,
    LinkedListInAlikeOrder._getIndex 0.9%float fed_list = Z.of_nat i /\
    (i <= length [Scored (Str "fourth") 0.9%float;
                  Scored (Str "second") 0.9%float])%nat /\
    (forall j v, (j < i)%nat ->
       [Scored (Str "fourth") 0.9%float; Scored (Str "second") 0.9%float] !! j
         = Some v ->
       Num.le (alike v) 0.9%float = false) /\
    ((i < length [Scored (Str "fourth") 0.9%float;
                  Scored (Str "second") 0.9%float])%nat ->
       exists v,
         [Scored (Str "fourth") 0.9%float; Scored (Str "second") 0.9%float] !! i
           = Some v /\
         Num.le (alike v) 0.9%float = true).
Proof.
  apply (_getIndex_first_not_above 2 Examples.fed);
    [lia | vm_compute; reflexivity | vm_compute; reflexivity].
Defined.

(** X6: a list that holds [K] candidates, none of them with a score
    [<=] that of the new candidate, is left as it was by [addNode]. *)
Theorem full_list_discards_lower (K : Z) (os vs : list scored) (o : scored) :
  (1 <= K)%Z ->
  rank K os = Ok vs ->
  Z.of_nat (length vs) = K ->
  Forall (fun v => Num.le (alike v) (alike o) = false) vs ->
  rank K (os ++ [o]) = Ok vs.
Proof.
  intros HK Hr Hlen Hlow.
  rewrite CapacityFacts.rank_snoc by exact HK.
  rewrite <- (CapacityFacts.rank_held K os vs HK Hr).
  rewrite CapacityFacts.add_full by exact Hlen.
  rewrite CapacityFacts.insert_desc_last by exact Hlow.
  rewrite removelast_last. reflexivity.
Qed.

Lemma full_list_discards_lower_witness :
  rank 2 (Examples.fed ++ [Scored (Str "fifth") 0.5%float]) =
  Ok [Scored (Str "fourth") 0.9%float; Scored (Str "second") 0.9%float].
Proof.
  apply full_list_discards_lower; [lia | reflexivity | reflexivity |].
  repeat constructor.
Defined.

(** X7: a list that holds [K] candidates, one of them with a score
    [<=] that of the new candidate (a tie included), takes the new
    candidate in and drops the candidate that was last. *)
Theorem full_list_admits_and_evicts (K : Z) (os vs : list scored)
    (o : scored) :
  (1 <= K)%Z ->
  rank K os = Ok vs ->
  Z.of_nat (length vs) = K ->
  Exists (fun v => Num.le (alike v) (alike o) = true) vs ->
  exists vs' w,
    rank K (os ++ [o]) = Ok vs' /\
    last vs = Some w /\
    o ∈ vs' /\
    Permutation (vs' ++ [w]) (o :: vs).
Proof.
  intros HK Hr Hlen Hle.
  destruct (CapacityFacts.insert_desc_inner o vs Hle) as (rs & w & E & Hw & Hin).
  exists rs, w. split; [|split; [exact Hw | split; [exact Hin|]]].
  - rewrite CapacityFacts.rank_snoc by exact HK.
    rewrite <- (CapacityFacts.rank_held K os vs HK Hr).
    rewrite CapacityFacts.add_full by exact Hlen.
    rewrite E, removelast_last. reflexivity.
  - rewrite <- E. apply insert_desc_perm.
Qed.

Lemma full_list_admits_and_evicts_witness :
  exists vs' w,
    rank 2 (Examples.fed ++ [Scored (Str "fifth") 0.9%float]) = Ok vs' /\
    last [Scored (Str "fourth") 0.9%float; Scored (Str "second") 0.9%float]
      = Some w /\
    Scored (Str "fifth") 0.9%float ∈ vs' /\
    Permutation (vs' ++ [w])
      (Scored (Str "fifth") 0.9%float ::
       [Scored (Str "fourth") 0.9%float; Scored (Str "second") 0.9%float]).
Proof.
  apply full_list_admits_and_evicts; [lia | reflexivity | reflexivity |].
  constructor. reflexivity.
Defined.

(** ** The operations with a loaded model, call by call *)

Module CallFacts.

Lemma provider_calls_app tr1 tr2 :
  provider_calls (tr1 ++ tr2) = provider_calls tr1 ++ provider_calls tr2.
Proof. apply omap_app. Qed.

(** What a sweep asks of the provider: [sentence] once, ahead of the
    first candidate, then every candidate. *)
Definition asked (sentence : string) (texts : list item) : list item :=
  match texts with
  | [] => []
  | _ :: _ => Str sentence :: texts
  end.

Lemma provider_calls_sweep f sentence texts : forall i,
  provider_calls (sweep_events f sentence i texts) =
  (if (i =? 0)%nat then asked sentence texts else texts).
Proof.
  induction texts as [|t texts IH]; intros i.
  - destruct (i =? 0)%nat; reflexivity.
  - cbn [sweep_events]. rewrite !provider_calls_app, IH.
    destruct (i =? 0)%nat; reflexivity.
Qed.

Section LoadedCalls.
Variable f : item -> embedding_t.

Lemma scores_of_lookup sentence texts : forall i,
  scores_of f sentence texts !! i = score_of f sentence <$> texts !! i.
Proof.
  induction texts as [|t texts IH]; intros [|i]; try reflexivity.
  apply IH.
Qed.

Lemma scores_of_length sentence texts :
  length (scores_of f sentence texts) = length texts.
Proof. apply length_map. Qed.

Lemma compareTwoSentences_loaded a b tr :
  compareTwoSentences (Some f) a b tr =
  (Ok (a, b, calculateCosineSimilarity (f (Str a)) (f (Str b))),
   tr ++ [Embedded (Str a); Embedded (Str b);
          Similarity (f (Str a)) (Some (f (Str b)))]).
Proof.
  unfold compareTwoSentences. cbn [negb loaded]. unfold mbind at 1, M_bind.
  change (classify (Some f) a (Str b) None false None false tr)
    with (classify (Some f) a (Str b) None (negb (0 =? 0)%nat) None false tr).
  rewrite classify_loaded by (left; reflexivity). reflexivity.
Qed.

Lemma getCached_loop_loaded ss : forall tr,
  getCached_loop (Some f) ss tr =
  (Ok ((fun x => Entry (Some x) (f (Str x))) <$> ss),
   tr ++ ((fun x => Embedded (Str x)) <$> ss)).
Proof.
  induction ss as [|x ss IH]; intros tr.
  - cbn. rewrite app_nil_r. reflexivity.
  - cbn [getCached_loop]. msimpl. rewrite IH. cbn.
    rewrite <- app_assoc. reflexivity.
Qed.

Lemma getCached_loaded ss tr :
  getCached (Some f) ss tr =
  (Ok ((fun x => Entry (Some x) (f (Str x))) <$> ss),
   tr ++ ((fun x => Embedded (Str x)) <$> ss)).
Proof. apply getCached_loop_loaded. Qed.

End LoadedCalls.

(** ** Sweeps over precached candidates *)

(** A candidate that carries an embedding. *)
Definition cached (x : item) : Prop := is_Some (prop_embedding x).

(** A cache entry the cached operations accept. *)
Definition valid (x : item) : Prop := truthy (prop_sentenceTwo x) = true.

Lemma valid_cached x : valid x -> cached x.
Proof. destruct x; [discriminate|]. intros _. eexists. reflexivity. Qed.

Lemma check_cached_valid items :
  Forall valid items -> exists c, check_cached items = Ok c.
Proof.
  induction 1 as [|x items Hx _ [c IH]]; [eexists; reflexivity|].
  cbn [check_cached]. rewrite Hx. cbn [negb].
  destruct (valid_cached x Hx) as [e ->]. rewrite IH. eexists. reflexivity.
Qed.

Section Precached.
Variable f : item -> embedding_t.
Variable sentence : string.

Definition cached_score (x : item) : scored :=
  Scored (text_of x)
    (calculateCosineSimilarity (f (Str sentence))
       (default [] (prop_embedding x))).

Fixpoint cached_events (i : nat) (items : list item) : list event :=
  match items with
  | [] => []
  | x :: items =>
      (if (i =? 0)%nat then [Embedded (Str sentence)] else []) ++
      [Similarity (f (Str sentence)) (prop_embedding x)] ++
      cached_events (S i) items
  end.

Lemma provider_calls_cached items : forall i,
  provider_calls (cached_events i items) =
  (if (i =? 0)%nat then match items with [] => [] | _ => [Str sentence] end
   else []).
Proof.
  induction items as [|x items IH]; intros i.
  - destruct (i =? 0)%nat; reflexivity.
  - cbn [cached_events]. rewrite !provider_calls_app, IH.
    destruct (i =? 0)%nat; reflexivity.
Qed.

Lemma classify_cached i cache t e tr :
  i = 0%nat \/ cache = Some (f (Str sentence)) ->
  classify (Some f) sentence t cache (negb (i =? 0)%nat) (Some e) true tr =
  (Ok (t, calculateCosineSimilarity (f (Str sentence)) e,
       Some (f (Str sentence))),
   tr ++ (if (i =? 0)%nat then [Embedded (Str sentence)] else []) ++
         [Similarity (f (Str sentence)) (Some e)]).
Proof.
  intros H. unfold classify. cbn [negb andb loaded].
  destruct (i =? 0)%nat eqn:E; cbn [negb].
  - msimpl. rewrite <- !app_assoc. reflexivity.
  - destruct H as [->| ->]; [discriminate|]. msimpl. reflexivity.
Qed.

Lemma compare_loop_cached items : forall i cache tr,
  i = 0%nat \/ cache = Some (f (Str sentence)) ->
  Forall cached items ->
  compare_loop (Some f) sentence true i cache items tr =
  (Ok (cached_score <$> items), tr ++ cached_events i items).
Proof.
  induction items as [|x items IH]; intros i cache tr H Hc.
  - simpl. rewrite app_nil_r. reflexivity.
  - apply Forall_cons in Hc as [[e He] Hc].
    cbn [compare_loop]. unfold mbind at 1, M_bind.
    rewrite He, classify_cached by exact H.
    rewrite (cache_step f sentence i cache H).
    unfold mbind at 1, M_bind. rewrite IH by (auto).
    cbn. unfold cached_score. rewrite He. cbn.
    rewrite <- !app_assoc. reflexivity.
Qed.

Lemma compareSentenceToArray_cached items tr :
  Forall cached items ->
  compareSentenceToArray (Some f) sentence items true tr =
  (Ok (Compared sentence (cached_score <$> items)),
   tr ++ cached_events 0 items).
Proof.
  intros Hc. unfold compareSentenceToArray. cbn [negb andb].
  unfold mbind, M_bind. rewrite compare_loop_cached by auto. reflexivity.
Qed.

Lemma cachedCompareSentenceToArray_loaded items tr :
  Forall valid items ->
  cachedCompareSentenceToArray (Some f) sentence items tr =
  (Ok (Compared sentence (cached_score <$> items)),
   tr ++ cached_events 0 items).
Proof.
  intros Hv. unfold cachedCompareSentenceToArray.
  destruct (check_cached_valid items Hv) as [c Ec].
  unfold mbind at 1, M_bind, lift. rewrite Ec.
  unfold mbind, M_bind. rewrite compareSentenceToArray_cached.
  - reflexivity.
  - eapply Forall_impl; [exact Hv | exact valid_cached].
Qed.

Lemma cachedArrayInOrder_loaded items tr :
  Forall valid items ->
  cachedArrayInOrder (Some f) sentence items tr =
  (Ok (Compared sentence (JSArray.sort by_alike_desc (cached_score <$> items))),
   tr ++ cached_events 0 items).
Proof.
  intros Hv. unfold cachedArrayInOrder.
  destruct (check_cached_valid items Hv) as [c Ec].
  unfold mbind at 1, M_bind, lift. rewrite Ec.
  unfold mbind, M_bind. rewrite compareSentenceToArray_cached.
  - reflexivity.
  - eapply Forall_impl; [exact Hv | exact valid_cached].
Qed.

(** The entries [getCached] makes of [ss]. *)
Definition entries_of (ss : list string) : list item :=
  (fun x => Entry (Some x) (f (Str x))) <$> ss.

Lemma entries_of_valid ss :
  Forall (fun x => x <> "") ss -> Forall valid (entries_of ss).
Proof.
  intros H. apply Forall_fmap. eapply Forall_impl; [exact H|].
  intros x Hx. unfold valid. cbn.
  destruct (String.eqb_spec x ""); [contradiction|reflexivity].
Qed.

Lemma cached_score_entries_of ss :
  Forall (fun x => x <> "") ss ->
  cached_score <$> entries_of ss = scores_of f sentence (Str <$> ss).
Proof.
  induction 1 as [|x ss Hx _ IH]; [reflexivity|].
  unfold entries_of, scores_of in IH |- *. rewrite !fmap_cons. cbn [map].
  rewrite IH. f_equal.
  unfold cached_score, score_of, text_of. cbn.
  destruct (String.eqb_spec x ""); [contradiction|reflexivity].
Qed.

Lemma text_of_Str (ss : list string) : text_of <$> (Str <$> ss) = Str <$> ss.
Proof.
  induction ss as [|x ss IH]; [reflexivity|].
  rewrite !fmap_cons, IH. reflexivity.
Qed.

End Precached.
End CallFacts.

(** X8: [compareSentenceToArray] returns one record per candidate, in
    the order of the input: at index [i], the text of [array[i]] with its
    score against [sentence]. *)
Theorem compareSentenceToArray_in_input_order (f : item -> embedding_t)
    (sentence : string) (items : list item) (tr : list event) :
  exists rs tr',
    compareSentenceToArray (Some f) sentence items false tr =
      (Ok (Compared sentence rs), tr') /\
    length rs = length items /\
    forall i x, items !! i = Some x ->
      rs !! i =
      Some (Scored (text_of x)
              (calculateCosineSimilarity (f (Str sentence)) (f (text_of x)))).
Proof.
  eexists _, _. split; [apply compareSentenceToArray_loaded|].
  rewrite CallFacts.scores_of_length, length_fmap. split; [reflexivity|].
  intros i x Hx.
  rewrite CallFacts.scores_of_lookup, list_lookup_fmap, Hx. reflexivity.
Qed.

(** X9: [compareSentenceToArray], [arrayInOrder] and [getTop] call
    the provider on [sentence] once, ahead of the first candidate, and
    then once on every candidate in input order; on an empty array they
    do not call it. *)
Theorem sweeps_embed_sentence_once (f : item -> embedding_t)
    (sentence : string) (items : list item) (k : Z) (tr : list event) :
  (0 < k)%Z ->
  provider_calls (compareSentenceToArray (Some f) sentence items false tr).2 =
    provider_calls tr ++ CallFacts.asked sentence (text_of <$> items) /\
  provider_calls (arrayInOrder (Some f) sentence items tr).2 =
    provider_calls tr ++ CallFacts.asked sentence (text_of <$> items) /\
  provider_calls (getTop (Some f) sentence items k tr).2 =
    provider_calls tr ++ CallFacts.asked sentence items.
Proof.
  intros Hk.
  rewrite compareSentenceToArray_loaded, arrayInOrder_loaded,
    getTop_loaded by exact Hk.
  cbn [snd]. rewrite !CallFacts.provider_calls_app,
    !CallFacts.provider_calls_sweep. auto.
Qed.

Lemma sweeps_embed_sentence_once_witness :
  provider_calls (compareSentenceToArray (Some Examples.toy_model) "cats"
                    [Str "dogs"; Str "xyz"] false []).2 =
    provider_calls [] ++ CallFacts.asked "cats" (text_of <$> [Str "dogs"; Str "xyz"]) /\
  provider_calls (arrayInOrder (Some Examples.toy_model) "cats"
                    [Str "dogs"; Str "xyz"] []).2 =
    provider_calls [] ++ CallFacts.asked "cats" (text_of <$> [Str "dogs"; Str "xyz"]) /\
  provider_calls (getTop (Some Examples.toy_model) "cats"
                    [Str "dogs"; Str "xyz"] 1 []).2 =
    provider_calls [] ++ CallFacts.asked "cats" [Str "dogs"; Str "xyz"].
Proof. apply sweeps_embed_sentence_once. lia. Defined.

(** X10: the score [compareSentenceToArray] gives the candidate at
    index [i] is the score [compareTwoSentences] gives that pair. *)
Theorem compareTwoSentences_agrees_with_sweep (f : item -> embedding_t)
    (sentence : string) (ss : list string) (i : nat) (t : string)
    (tr : list event) :
  ss !! i = Some t ->
  exists rs tr1 score tr2,
    compareSentenceToArray (Some f) sentence (Str <$> ss) false tr =
      (Ok (Compared sentence rs), tr1) /\
    compareTwoSentences (Some f) sentence t tr =
      (Ok (sentence, t, score), tr2) /\
    rs !! i = Some (Scored (Str t) score).
Proof.
  intros Ht. eexists _, _, _, _.
  split; [apply compareSentenceToArray_loaded|].
  split; [apply CallFacts.compareTwoSentences_loaded|].
  rewrite CallFacts.scores_of_lookup, !list_lookup_fmap, Ht. reflexivity.
Qed.

Lemma compareTwoSentences_agrees_with_sweep_witness :
  exists rs tr1 score tr2,
    compareSentenceToArray (Some Examples.toy_model) "cats"
      (Str <$> ["dogs"; "xyz"]) false [] = (Ok (Compared "cats" rs), tr1) /\
    compareTwoSentences (Some Examples.toy_model) "cats" "xyz" [] =
      (Ok ("cats", "xyz", score), tr2) /\
    rs !! 1%nat = Some (Scored (Str "xyz") score).
Proof. apply compareTwoSentences_agrees_with_sweep. reflexivity. Defined.

(** X11: with a provider that embeds both sentences into the same
    number of components, [compareTwoSentences(a, b)] and
    [compareTwoSentences(b, a)] return the same score. *)
Theorem compareTwoSentences_symmetric (f : item -> embedding_t)
    (a b : string) (tr : list event) :
  length (f (Str a)) = length (f (Str b)) ->
  exists score tr1 tr2,
    compareTwoSentences (Some f) a b tr = (Ok (a, b, score), tr1) /\
    compareTwoSentences (Some f) b a tr = (Ok (b, a, score), tr2).
Proof.
  intros Hlen. eexists _, _, _.
  split; [apply CallFacts.compareTwoSentences_loaded|].
  rewrite CallFacts.compareTwoSentences_loaded.
  rewrite (ScorerFacts.calculateCosineSimilarity_swap _ _ Hlen). reflexivity.
Qed.

Lemma compareTwoSentences_symmetric_witness :
  exists score tr1 tr2,
    compareTwoSentences (Some Examples.toy_model) "cats" "dogs" [] =
      (Ok ("cats", "dogs", score), tr1) /\
    compareTwoSentences (Some Examples.toy_model) "dogs" "cats" [] =
      (Ok ("dogs", "cats", score), tr2).
Proof. apply compareTwoSentences_symmetric. reflexivity. Defined.

(** X12: with a loaded model, [getTop] with [numberOfResults <= 0]
    throws the InvalidK error before any provider call, whatever the
    array. *)
Theorem getTop_rejects_nonpositive (f : item -> embedding_t)
    (sentence : string) (items : list item) (k : Z) (tr : list event) :
  (k <= 0)%Z ->
  getTop (Some f) sentence items k tr = (Throw InvalidK, tr).
Proof.
  intros Hk. unfold getTop. cbn [negb loaded].
  destruct (Z.leb_spec k 0) as [_|?]; [reflexivity|lia].
Qed.

Lemma getTop_rejects_nonpositive_witness :
  getTop (Some Examples.toy_model) "cats" [Str "dogs"] (-1) [] =
  (Throw InvalidK, []).
Proof. apply getTop_rejects_nonpositive. lia. Defined.

(** X13: with [k >= 1] and scores that are numbers, [getTop] returns
    [min(k, array.length)] candidates of the input, sorted descending by
    score, and no candidate it leaves out scores above one it returns;
    ties do not matter. *)
Theorem getTop_keeps_the_best (f : item -> embedding_t) (sentence : string)
    (items : list item) (k : Z) (tr : list event) :
  (0 < k)%Z ->
  Forall scoreOK (scores_of f sentence items) ->
  exists rs tr',
    getTop (Some f) sentence items k tr = (Ok (Compared sentence rs), tr') /\
    StronglySorted desc rs /\
    length rs = Nat.min (length items) (Z.to_nat k) /\
    exists dropped,
      Permutation (rs ++ dropped) (scores_of f sentence items) /\
      forall r d, r ∈ rs -> d ∈ dropped -> desc r d.
Proof.
  intros Hk Hok. eexists _, _. split; [apply getTop_loaded, Hk|].
  destruct items as [|x items].
  - split; [constructor|]. split; [reflexivity|].
    exists []. split; [reflexivity|]. intros r d Hr. inversion Hr.
  - set (K := Z.min k (Z.of_nat (length (x :: items)))).
    assert (HK : (1 <= K)%Z) by (unfold K; cbn [length]; lia).
    destruct (top_of_feed K (scores_of f sentence (x :: items)) [] [] HK
                (Forall_nil_2 _) Hok (top_of_nil K)) as (Hs & Hlen & Hdrop).
    rewrite app_nil_l in Hlen, Hdrop.
    split; [exact Hs|]. split; [|exact Hdrop].
    rewrite Hlen, CallFacts.scores_of_length. unfold K. lia.
Qed.

Lemma getTop_keeps_the_best_witness :
  exists rs tr',
    getTop (Some Examples.toy_model) "cats"
      [Str "xyz"; Str "dogs"; Str "cats"] 2 [] = (Ok (Compared "cats" rs), tr') /\
    StronglySorted desc rs /\
    length rs = Nat.min (length [Str "xyz"; Str "dogs"; Str "cats"]) (Z.to_nat 2) /\
    exists dropped,
      Permutation (rs ++ dropped)
        (scores_of Examples.toy_model "cats" [Str "xyz"; Str "dogs"; Str "cats"]) /\
      forall r d, r ∈ rs -> d ∈ dropped -> desc r d.
Proof.
  apply getTop_keeps_the_best; [lia|].
  repeat constructor.
Defined.

(** ** The cache *)

(** X14: with a loaded model, [getCached] returns one entry per
    sentence, in order, holding the sentence and its embedding, after one
    provider call per sentence. *)
Theorem getCached_entries (f : item -> embedding_t) (ss : list string)
    (tr : list event) :
  exists entries tr',
    getCached (Some f) ss tr = (Ok entries, tr') /\
    length entries = length ss /\
    (forall i x, ss !! i = Some x ->
       entries !! i = Some (Entry (Some x) (f (Str x)))) /\
    provider_calls tr' = provider_calls tr ++ (Str <$> ss).
Proof.
  eexists _, _. split; [apply CallFacts.getCached_loaded|].
  rewrite length_fmap. split; [reflexivity|]. split.
  - intros i x Hx. rewrite list_lookup_fmap, Hx. reflexivity.
  - rewrite CallFacts.provider_calls_app. f_equal.
    induction ss as [|x ss IH]; [reflexivity|].
    rewrite !fmap_cons. cbn. f_equal. exact IH.
Qed.

(** X15: on cache entries with non-empty texts,
    [cachedCompareSentenceToArray] scores [sentence] against the
    embedding stored in each entry, in order, and calls the provider on
    [sentence] only (not at all for an empty array). *)
Theorem cached_sweep_scores_entries (f : item -> embedding_t)
    (sentence : string) (es : list (string * embedding_t))
    (tr : list event) :
  Forall (fun te => te.1 <> "") es ->
  exists tr',
    cachedCompareSentenceToArray (Some f) sentence
      ((fun te => Entry (Some te.1) te.2) <$> es) tr =
    (Ok (Compared sentence
           ((fun te => Scored (Str te.1)
                         (calculateCosineSimilarity (f (Str sentence)) te.2))
            <$> es)), tr') /\
    provider_calls tr' =
    provider_calls tr ++ match es with [] => [] | _ :: _ => [Str sentence] end.
Proof.
  intros Hes. eexists. split.
  - rewrite CallFacts.cachedCompareSentenceToArray_loaded.
    + rewrite <- list_fmap_compose. do 3 f_equal.
      apply Forall_fmap_ext_1. eapply Forall_impl; [exact Hes|].
      intros [t e] Ht. cbn in Ht |- *.
      unfold CallFacts.cached_score, text_of. cbn.
      destruct (String.eqb_spec t ""); [contradiction|reflexivity].
    + apply Forall_fmap. eapply Forall_impl; [exact Hes|].
      intros [t e] Ht. unfold CallFacts.valid. cbn in Ht |- *.
      destruct (String.eqb_spec t ""); [contradiction|reflexivity].
  - rewrite CallFacts.provider_calls_app, CallFacts.provider_calls_cached.
    destruct es; reflexivity.
Qed.

Lemma cached_sweep_scores_entries_witness :
  exists tr',
    cachedCompareSentenceToArray (Some Examples.toy_model) "cats"
      ((fun te => Entry (Some te.1) te.2) <$>
         [("dogs", [0.5; 0.5]%float); ("xyz", [0; 1]%float)]) [] =
    (Ok (Compared "cats"
           ((fun te => Scored (Str te.1)
                         (calculateCosineSimilarity
                            (Examples.toy_model (Str "cats")) te.2))
            <$> [("dogs", [0.5; 0.5]%float); ("xyz", [0; 1]%float)])), tr') /\
    provider_calls tr' =
    provider_calls [] ++
      match [("dogs", [0.5; 0.5]%float); ("xyz", [0; 1]%float)] with
      | [] => []
      | _ :: _ => [Str "cats"]
      end.
Proof.
  apply cached_sweep_scores_entries.
  repeat constructor; discriminate.
Defined.

(** X16: for non-empty sentences, the cached operations on what
    [getCached] returns give the results of the uncached ones:
    [cachedCompareSentenceToArray] that of [compareSentenceToArray], and
    [cachedArrayInOrder] that of [arrayInOrder]. *)
Theorem cache_round_trip (f : item -> embedding_t) (sentence : string)
    (ss : list string) (tr : list event) :
  Forall (fun x => x <> "") ss ->
  exists entries tr1 r tr2 sorted tr3 tr4 tr5,
    getCached (Some f) ss tr = (Ok entries, tr1) /\
    cachedCompareSentenceToArray (Some f) sentence entries tr1 = (Ok r, tr2) /\
    compareSentenceToArray (Some f) sentence (Str <$> ss) false tr = (Ok r, tr3) /\
    cachedArrayInOrder (Some f) sentence entries tr1 = (Ok sorted, tr4) /\
    arrayInOrder (Some f) sentence (Str <$> ss) tr = (Ok sorted, tr5).
Proof.
  intros Hss. eexists _, _, _, _, _, _, _, _.
  split; [apply CallFacts.getCached_loaded|].
  split; [apply CallFacts.cachedCompareSentenceToArray_loaded,
            CallFacts.entries_of_valid, Hss|].
  split; [rewrite compareSentenceToArray_loaded, CallFacts.text_of_Str,
            <- (CallFacts.cached_score_entries_of f sentence ss Hss);
          reflexivity|].
  split; [apply CallFacts.cachedArrayInOrder_loaded,
            CallFacts.entries_of_valid, Hss|].
  rewrite arrayInOrder_loaded, CallFacts.text_of_Str,
    <- (CallFacts.cached_score_entries_of f sentence ss Hss).
  reflexivity.
Qed.

Lemma cache_round_trip_witness :
  exists entries tr1 r tr2 sorted tr3 tr4 tr5,
    getCached (Some Examples.toy_model) ["dogs"; "xyz"] [] = (Ok entries, tr1) /\
    cachedCompareSentenceToArray (Some Examples.toy_model) "cats" entries tr1 =
      (Ok r, tr2) /\
    compareSentenceToArray (Some Examples.toy_model) "cats"
      (Str <$> ["dogs"; "xyz"]) false [] = (Ok r, tr3) /\
    cachedArrayInOrder (Some Examples.toy_model) "cats" entries tr1 =
      (Ok sorted, tr4) /\
    arrayInOrder (Some Examples.toy_model) "cats" (Str <$> ["dogs"; "xyz"]) [] =
      (Ok sorted, tr5).
Proof.
  apply cache_round_trip.
  repeat constructor; discriminate.
Defined.

(** X17: [getCached] accepts an empty sentence, and the cached
    operations reject the entry it makes of it: with [""] among the
    sentences they throw the InvalidCacheEntry error, with no further
    provider call. *)
Theorem cached_empty_sentence_rejected (f : item -> embedding_t)
    (model : option (item -> embedding_t)) (sentence : string)
    (ss : list string) (tr : list event) :
  "" ∈ ss ->
  exists entries tr1,
    getCached (Some f) ss tr = (Ok entries, tr1) /\
    cachedCompareSentenceToArray model sentence entries tr1 =
      (Throw InvalidCacheEntry, tr1) /\
    cachedArrayInOrder model sentence entries tr1 =
      (Throw InvalidCacheEntry, tr1).
Proof.
  intros Hin. eexists _, _. split; [apply CallFacts.getCached_loaded|].
  assert (E : check_cached ((fun x => Entry (Some x) (f (Str x))) <$> ss) =
              Throw InvalidCacheEntry).
  { apply (check_cached_invalid _ (Entry (Some "") (f (Str "")))); [|reflexivity].
    apply (list_elem_of_fmap_2 (fun x => Entry (Some x) (f (Str x))) _ _ Hin). }
  unfold cachedCompareSentenceToArray, cachedArrayInOrder.
  unfold mbind, M_bind, lift. rewrite E. split; reflexivity.
Qed.

Lemma cached_empty_sentence_rejected_witness :
  exists entries tr1,
    getCached (Some Examples.toy_model) ["dogs"; ""] [] = (Ok entries, tr1) /\
    cachedCompareSentenceToArray (Some Examples.toy_model) "cats" entries tr1 =
      (Throw InvalidCacheEntry, tr1) /\
    cachedArrayInOrder (Some Examples.toy_model) "cats" entries tr1 =
      (Throw InvalidCacheEntry, tr1).
Proof.
  apply cached_empty_sentence_rejected.
  right. left.
Defined.

(** X18: on valid cache entries whose scores are numbers, the array
    of [cachedArrayInOrder] is a permutation of that of
    [cachedCompareSentenceToArray], sorted descending by score, with
    candidates of equal score in their original order. *)
Theorem cachedArrayInOrder_sorted_stable (f : item -> embedding_t)
    (sentence : string) (items : list item) (tr : list event) :
  Forall CallFacts.valid items ->
  Forall scoreOK (CallFacts.cached_score f sentence <$> items) ->
  exists rs rs' tr',
    cachedCompareSentenceToArray (Some f) sentence items tr =
      (Ok (Compared sentence rs), tr') /\
    cachedArrayInOrder (Some f) sentence items tr =
      (Ok (Compared sentence rs'), tr') /\
    Permutation rs' rs /\
    StronglySorted desc rs' /\
    forall v, List.filter (tied v) rs' = List.filter (tied v) rs.
Proof.
  intros Hv Hok. eexists _, _, _.
  split; [apply CallFacts.cachedCompareSentenceToArray_loaded, Hv|].
  split; [apply CallFacts.cachedArrayInOrder_loaded, Hv|].
  split; [apply sort_perm|]. split; [apply sort_sorted, Hok|].
  intros v. apply sort_stable, Hok.
Qed.

Lemma cachedArrayInOrder_sorted_stable_witness :
  exists rs rs' tr',
    cachedCompareSentenceToArray (Some Examples.toy_model) "cats"
      [Entry (Some "xyz") [0; 1]%float; Entry (Some "dogs") [0.5; 0.5]%float] [] =
      (Ok (Compared "cats" rs), tr') /\
    cachedArrayInOrder (Some Examples.toy_model) "cats"
      [Entry (Some "xyz") [0; 1]%float; Entry (Some "dogs") [0.5; 0.5]%float] [] =
      (Ok (Compared "cats" rs'), tr') /\
    Permutation rs' rs /\
    StronglySorted desc rs' /\
    forall v, List.filter (tied v) rs' = List.filter (tied v) rs.
Proof.
  apply cachedArrayInOrder_sorted_stable; repeat constructor.
Defined.

(** X19: while [model] is null, the precached calls on a non-empty
    array of valid entries end with the TypeError of calling [null], not
    with the ModelNotLoaded error, and leave no event. *)
Theorem precached_calls_without_model (sentence : string) (x : item)
    (items : list item) (tr : list event) :
  Forall CallFacts.valid (x :: items) ->
  compareSentenceToArray None sentence (x :: items) true tr =
    (Throw TypeError, tr) /\
  cachedCompareSentenceToArray None sentence (x :: items) tr =
    (Throw TypeError, tr) /\
  cachedArrayInOrder None sentence (x :: items) tr = (Throw TypeError, tr).
Proof.
  intros Hv. destruct (CallFacts.check_cached_valid _ Hv) as [c Ec].
  unfold cachedCompareSentenceToArray, cachedArrayInOrder.
  unfold mbind at 2 4, M_bind, lift. rewrite Ec.
  repeat split; reflexivity.
Qed.

Lemma precached_calls_without_model_witness :
  compareSentenceToArray None "cats" [Entry (Some "dogs") [0.5; 0.5]%float] true [] =
    (Throw TypeError, []) /\
  cachedCompareSentenceToArray None "cats" [Entry (Some "dogs") [0.5; 0.5]%float] [] =
    (Throw TypeError, []) /\
  cachedArrayInOrder None "cats" [Entry (Some "dogs") [0.5; 0.5]%float] [] =
    (Throw TypeError, []).
Proof. apply precached_calls_without_model. repeat constructor. Defined.

(** ** The store version *)

Lemma store_compareSentenceToArray_refines_witness :
  exists σ' r,
    Store.compareSentenceToArray (Some Examples.toy_model) "cats" 0%nat false
      {[ 0%nat := Store.CItem <$> [Str "dogs"; Str "xyz"] ]} [] =
      (Ok ("cats", r), σ',
       sweep_events Examples.toy_model "cats" 0 [Str "dogs"; Str "xyz"]) /\
    σ' !! r =
      Some (Store.CScored <$>
              scores_of Examples.toy_model "cats" [Str "dogs"; Str "xyz"]) /\
    σ' !! 0%nat = Some (Store.CItem <$> [Str "dogs"; Str "xyz"]).
Proof.
  apply store_compareSentenceToArray_refines; reflexivity.
Defined.

(** ** Loading the model *)

Module LoaderFacts.
Import Loader.

Section WithPipeline.
Context {data : Type}.
Variable pipeline : nat -> promise data.

(** The model the first promise gives. *)
Definition model_of (pr : promise data) : option (item -> embedding_t) :=
  match settles pr with Resolved p => Some p | Rejected _ => None end.

(** The state after the first [loadModel], whatever follows. *)
Definition settled : state data :=
  State (Some (pipeline 0)) (model_of (pipeline 0))
    (last (notifications (pipeline 0))) 1.

Lemma report_progress (ds : list data) : forall st,
  fold_left (fun st d => set_progress (Some d) st) ds st =
  set_progress (match last ds with Some d => Some d | None => progress st end) st.
Proof.
  induction ds as [|d ds IH]; intros st.
  - destruct st; reflexivity.
  - cbn [fold_left]. rewrite IH, last_cons.
    destruct (last ds); reflexivity.
Qed.

Lemma loadModel_initial :
  (loadModel pipeline initial).2 = settled.
Proof.
  unfold loadModel, getInstance. cbn [instance initial pipeline_calls].
  rewrite report_progress. unfold settled, model_of.
  destruct (settles (pipeline 0)), (last (notifications (pipeline 0)));
    reflexivity.
Qed.

Lemma loadModel_settled :
  loadModel pipeline settled =
  (match settles (pipeline 0) with
   | Resolved _ => Returned
   | Rejected error => Thrown ("Unable to load Model due to " ++ error)
   end, settled).
Proof.
  unfold loadModel, getInstance, settled, model_of. cbn [instance].
  destruct (settles (pipeline 0)); reflexivity.
Qed.

Lemma loadModel_outcome st :
  st = initial \/ st = settled ->
  (loadModel pipeline st).1 =
  match settles (pipeline 0) with
  | Resolved _ => Returned
  | Rejected error => Thrown ("Unable to load Model due to " ++ error)
  end.
Proof.
  intros [->| ->]; [|rewrite loadModel_settled; reflexivity].
  unfold loadModel, getInstance. cbn [instance initial pipeline_calls].
  destruct (settles (pipeline 0)); reflexivity.
Qed.

Lemma reachable_inv st :
  reachable pipeline st -> st = initial \/ st = settled.
Proof.
  induction 1 as [|st _ [->| ->]]; [left; reflexivity| |]; right.
  - apply loadModel_initial.
  - rewrite loadModel_settled. reflexivity.
Qed.

End WithPipeline.
End LoaderFacts.

Section Loading.
Context {data : Type}.
Variable pipeline : nat -> Loader.promise data.

(** X21: [pipeline] is called once, by the first [loadModel]: after
    any [loadModel] the instance is the promise of that call, and a
    further [loadModel] leaves [instance], [model] and [progress] as they
    are. *)
Theorem pipeline_called_once (st : Loader.state data) :
  Loader.reachable pipeline st ->
  let st1 := (Loader.loadModel pipeline st).2 in
  Loader.pipeline_calls st1 = 1%nat /\
  Loader.instance st1 = Some (pipeline 0%nat) /\
  (Loader.loadModel pipeline st1).2 = st1.
Proof.
  intros Hr. cbv zeta.
  assert (E : (Loader.loadModel pipeline st).2 = LoaderFacts.settled pipeline).
  { destruct (LoaderFacts.reachable_inv pipeline st Hr) as [->| ->].
    - apply LoaderFacts.loadModel_initial.
    - rewrite LoaderFacts.loadModel_settled. reflexivity. }
  rewrite E, LoaderFacts.loadModel_settled. repeat split.
Qed.

(** X22: when the promise of the first [pipeline] call is rejected,
    every [loadModel], the first and any later one, throws "Unable to
    load Model due to ..." with that error and leaves [model] null:
    [pipeline] is not called again. *)
Theorem failed_load_is_final (st : Loader.state data) (error : string) :
  Loader.reachable pipeline st ->
  Loader.settles (pipeline 0%nat) = Loader.Rejected error ->
  (Loader.loadModel pipeline st).1 =
    Loader.Thrown ("Unable to load Model due to " ++ error) /\
  Loader.model (Loader.loadModel pipeline st).2 = None.
Proof.
  intros Hr He. pose proof (LoaderFacts.reachable_inv pipeline st Hr) as Hst.
  split.
  - rewrite (LoaderFacts.loadModel_outcome pipeline st Hst), He. reflexivity.
  - destruct Hst as [->| ->].
    + rewrite LoaderFacts.loadModel_initial.
      unfold LoaderFacts.settled, LoaderFacts.model_of. rewrite He. reflexivity.
    + rewrite LoaderFacts.loadModel_settled.
      unfold LoaderFacts.settled, LoaderFacts.model_of. rewrite He. reflexivity.
Qed.

(** X23: when the promise of the first [pipeline] call resolves,
    every [loadModel] returns and [model] is the pipeline it resolved
    to. *)
Theorem loaded_model_is_the_pipeline (st : Loader.state data)
    (p : item -> embedding_t) :
  Loader.reachable pipeline st ->
  Loader.settles (pipeline 0%nat) = Loader.Resolved p ->
  (Loader.loadModel pipeline st).1 = Loader.Returned /\
  Loader.model (Loader.loadModel pipeline st).2 = Some p.
Proof.
  intros Hr He. pose proof (LoaderFacts.reachable_inv pipeline st Hr) as Hst.
  split.
  - rewrite (LoaderFacts.loadModel_outcome pipeline st Hst), He. reflexivity.
  - destruct Hst as [->| ->].
    + rewrite LoaderFacts.loadModel_initial.
      unfold LoaderFacts.settled, LoaderFacts.model_of. rewrite He. reflexivity.
    + rewrite LoaderFacts.loadModel_settled.
      unfold LoaderFacts.settled, LoaderFacts.model_of. rewrite He. reflexivity.
Qed.

(** X24: [getProgress] is null until [loadModel] is called; after any
    [loadModel] it is the last progress object the first [pipeline] call
    reported, null if it reported none. *)
Theorem getProgress_last_report (st : Loader.state data) :
  Loader.reachable pipeline st ->
  (Loader.instance st = None -> Loader.getProgress st = None) /\
  Loader.getProgress (Loader.loadModel pipeline st).2 =
    last (Loader.notifications (pipeline 0%nat)).
Proof.
  intros Hr.
  destruct (LoaderFacts.reachable_inv pipeline st Hr) as [->| ->].
  - rewrite LoaderFacts.loadModel_initial. split; reflexivity.
  - rewrite LoaderFacts.loadModel_settled. split; [discriminate|reflexivity].
Qed.

End Loading.

Lemma pipeline_called_once_witness :
  let st1 := (Loader.loadModel LoaderExamples.steady
                (Loader.loadModel LoaderExamples.steady Loader.initial).2).2 in
  Loader.pipeline_calls st1 = 1%nat /\
  Loader.instance st1 = Some (LoaderExamples.steady 0%nat) /\
  (Loader.loadModel LoaderExamples.steady st1).2 = st1.
Proof.
  apply (pipeline_called_once LoaderExamples.steady).
  apply Loader.reachable_loadModel, Loader.reachable_initial.
Defined.

Lemma failed_load_is_final_witness :
  (Loader.loadModel LoaderExamples.flaky
     (Loader.loadModel LoaderExamples.flaky Loader.initial).2).1 =
    Loader.Thrown ("Unable to load Model due to " ++ "Error: offline") /\
  Loader.model
    (Loader.loadModel LoaderExamples.flaky
       (Loader.loadModel LoaderExamples.flaky Loader.initial).2).2 = None.
Proof.
  apply (failed_load_is_final LoaderExamples.flaky).
  - apply Loader.reachable_loadModel, Loader.reachable_initial.
  - reflexivity.
Defined.

Lemma loaded_model_is_the_pipeline_witness :
  (Loader.loadModel LoaderExamples.steady Loader.initial).1 = Loader.Returned /\
  Loader.model (Loader.loadModel LoaderExamples.steady Loader.initial).2 =
    Some Examples.toy_model.
Proof.
  apply (loaded_model_is_the_pipeline LoaderExamples.steady).
  - apply Loader.reachable_initial.
  - reflexivity.
Defined.

Lemma getProgress_last_report_witness :
  (Loader.instance (@Loader.initial nat) = None ->
   Loader.getProgress (@Loader.initial nat) = None) /\
  Loader.getProgress (Loader.loadModel LoaderExamples.steady Loader.initial).2 =
    last (Loader.notifications (LoaderExamples.steady 0%nat)).
Proof.
  apply (getProgress_last_report LoaderExamples.steady).
  apply Loader.reachable_initial.
Defined.

Section LoadThenCompare.
Context {data : Type}.
Variable pipeline : nat -> Loader.promise data.

(** X25: after a [loadModel] whose promise resolved to [p],
    [compareTwoSentences] scores with [p]; after one whose promise was
    rejected it throws the ModelNotLoaded error, as before any
    [loadModel]. *)
Theorem compareTwoSentences_after_loadModel (st : Loader.state data)
    (a b : string) (tr : list event) :
  Loader.reachable pipeline st ->
  compareTwoSentences (Loader.model (Loader.loadModel pipeline st).2) a b tr =
  match Loader.settles (pipeline 0%nat) with
  | Loader.Resolved p =>
      (Ok (a, b, calculateCosineSimilarity (p (Str a)) (p (Str b))),
       tr ++ [Embedded (Str a); Embedded (Str b);
              Similarity (p (Str a)) (Some (p (Str b)))])
  | Loader.Rejected _ => (Throw ModelNotLoaded, tr)
  end.
Proof.
  intros Hr.
  assert (E : Loader.model (Loader.loadModel pipeline st).2 =
              LoaderFacts.model_of (pipeline 0%nat)).
  { destruct (LoaderFacts.reachable_inv pipeline st Hr) as [->| ->].
    - rewrite LoaderFacts.loadModel_initial. reflexivity.
    - rewrite LoaderFacts.loadModel_settled. reflexivity. }
  rewrite E. unfold LoaderFacts.model_of.
  destruct (Loader.settles (pipeline 0%nat)) as [p|error].
  - apply CallFacts.compareTwoSentences_loaded.
  - reflexivity.
Qed.

End LoadThenCompare.

Lemma compareTwoSentences_after_loadModel_witness :
  compareTwoSentences
    (Loader.model
       (Loader.loadModel LoaderExamples.flaky
          (Loader.loadModel LoaderExamples.flaky Loader.initial).2).2)
    "cats" "dogs" [] =
  match Loader.settles (LoaderExamples.flaky 0%nat) with
  | Loader.Resolved p =>
      (Ok ("cats", "dogs",
           calculateCosineSimilarity (p (Str "cats")) (p (Str "dogs"))),
       [] ++ [Embedded (Str "cats"); Embedded (Str "dogs");
              Similarity (p (Str "cats")) (Some (p (Str "dogs")))])
  | Loader.Rejected _ => (Throw ModelNotLoaded, [])
  end.
Proof.
  apply (compareTwoSentences_after_loadModel LoaderExamples.flaky).
  apply Loader.reachable_loadModel, Loader.reachable_initial.
Defined.
